(** * Sliding-block puzzle: board model and breadth-first solver

    A shallow embedding of [generator/board.py] and [generator/solver.py].

    Python integers are unbounded, hence [Z].  The [vehicles] dict of a board
    is insertion ordered and that order is observable (it fixes the order of
    the emitted moves and the order in which [move] re-inserts the vehicles),
    so it is an association list.  Python sets of cells and of state hashes
    are lists used through membership only.  Methods that mutate the board
    return the new board next to their result.  The move counter of the
    solver starts at 0 and only grows by 1, hence [nat].  The [while] loop
    of the solver takes fuel; [solve_board_total] shows that it always
    returns. *)

From Stdlib Require Import ZArith List String Bool Lia Arith.
From Stdlib Require Import Permutation Sorted Orders Mergesort.
Import ListNotations.
Local Open Scope Z_scope.

(** ** Python built-ins used by the source *)

(** [range(lo, hi)]: empty when [hi <= lo]. *)
Definition range (lo hi : Z) : list Z :=
  map (fun i => lo + Z.of_nat i) (seq 0 (Z.to_nat (hi - lo))).

(** Insertion-ordered dict with string keys. *)
Section Dict.
Context {V : Type}.

Definition dict := list (string * V).

Definition keys (d : dict) : list string := map fst d.
Definition values (d : dict) : list V := map snd d.

(** [d[k]]; [None] stands for [KeyError]. *)
Fixpoint lookup (k : string) (d : dict) : option V :=
  match d with
  | [] => None
  | (k', v) :: d' => if String.eqb k' k then Some v else lookup k d'
  end.

(** [d[k] = v]: an existing key keeps its position, a new one goes last. *)
Fixpoint dict_set (k : string) (v : V) (d : dict) : dict :=
  match d with
  | [] => [(k, v)]
  | (k', v') :: d' =>
      if String.eqb k' k then (k, v) :: d' else (k', v') :: dict_set k v d'
  end.
End Dict.
Arguments dict : clear implicits.

(** [sorted] on strings: code-point order, which on byte strings is
    [String.leb]. *)
Module StringOrder <: TotalLeBool.
Definition t := string.
Definition leb := String.leb.
Lemma leb_total : forall a b, leb a b = true \/ leb b a = true.
Proof. exact String.leb_total. Qed.
End StringOrder.

Module StringSort := Sort StringOrder.

Definition sorted (l : list string) : list string := StringSort.sort l.

(** ** Vehicle *)

Definition Cell : Type := Z * Z.

Definition cell_eqb (a b : Cell) : bool :=
  (fst a =? fst b) && (snd a =? snd b).

(** [c in s] for a set of cells. *)
Definition mem (c : Cell) (s : list Cell) : bool := existsb (cell_eqb c) s.

(** [a.isdisjoint(b)] *)
Definition isdisjoint (a b : list Cell) : bool :=
  forallb (fun c => negb (mem c b)) a.

Module Vehicle.
Record t := mk
  { id : string;
    orientation : string;   (* 'horizontal' or 'vertical' *)
    length : Z;
    row : Z;
    col : Z }.

(** The source tests [orientation == 'horizontal'] and treats every other
    value as vertical. *)
Definition is_horizontal (v : t) : bool :=
  String.eqb (orientation v) "horizontal".

Definition occupies (v : t) : list Cell :=
  map (fun i => if is_horizontal v
                then (row v, col v + i)
                else (row v + i, col v))
      (range 0 (length v)).

Definition copy (v : t) : t :=
  mk (id v) (orientation v) (length v) (row v) (col v).

(** [v.col += steps] and [v.row += steps] *)
Definition add_col (v : t) (steps : Z) : t :=
  mk (id v) (orientation v) (length v) (row v) (col v + steps).
Definition add_row (v : t) (steps : Z) : t :=
  mk (id v) (orientation v) (length v) (row v + steps) (col v).
End Vehicle.

(** ** Board *)

Record Board := mkBoard
  { size : Z;
    vehicles : dict Vehicle.t }.

Definition Move : Type := string * Z.
Definition StateHash : Type := list (string * Z * Z).

(** [Board(size)] *)
Definition new_board (n : Z) : Board := mkBoard n [].

Definition out_of_bounds (n : Z) (c : Cell) : bool :=
  (fst c <? 0) || (fst c >=? n) || (snd c <? 0) || (snd c >=? n).

(** [add_vehicle]: the returned board is the receiver after the call. *)
Definition add_vehicle (b : Board) (vehicle : Vehicle.t) : bool * Board :=
  let new_cells := Vehicle.occupies vehicle in
  if existsb (fun v => negb (isdisjoint new_cells (Vehicle.occupies v)))
             (values (vehicles b))
  then (false, b)
  else if existsb (out_of_bounds (size b)) new_cells
  then (false, b)
  else (true, mkBoard (size b) (dict_set (Vehicle.id vehicle) vehicle (vehicles b))).

Definition get_state_hash (b : Board) : StateHash :=
  flat_map (fun v_id =>
              match lookup v_id (vehicles b) with
              | Some v => [(v_id, Vehicle.row v, Vehicle.col v)]
              | None => []  (* KeyError; v_id ranges over the keys *)
              end)
           (sorted (keys (vehicles b))).

Definition is_solved (b : Board) : bool :=
  match lookup "target" (vehicles b) with
  | None => false  (* 'target' not in self.vehicles *)
  | Some target => Vehicle.col target + Vehicle.length target =? size b
  end.

Definition get_occupied_cells (b : Board) : list Cell :=
  flat_map Vehicle.occupies (values (vehicles b)).

(** One probe of the forward loop: the [for i in range(vehicle.length)] body
    looks at the same cell (front edge plus [steps]) on every iteration. *)
Definition forward_blocked (b : Board) (occupied : list Cell)
    (vehicle : Vehicle.t) (steps : Z) : bool :=
  let current_my_cells := Vehicle.occupies vehicle in
  existsb (fun _ =>
             let '(r, c) :=
               if Vehicle.is_horizontal vehicle
               then (Vehicle.row vehicle,
                     Vehicle.col vehicle + Vehicle.length vehicle - 1 + steps)
               else (Vehicle.row vehicle + Vehicle.length vehicle - 1 + steps,
                     Vehicle.col vehicle) in
             if (r >=? size b) || (c >=? size b) then true
             else mem (r, c) occupied && negb (mem (r, c) current_my_cells))
          (range 0 (Vehicle.length vehicle)).

Definition backward_blocked (b : Board) (occupied : list Cell)
    (vehicle : Vehicle.t) (steps : Z) : bool :=
  let current_my_cells := Vehicle.occupies vehicle in
  existsb (fun _ =>
             let '(r, c) :=
               if Vehicle.is_horizontal vehicle
               then (Vehicle.row vehicle, Vehicle.col vehicle - steps)
               else (Vehicle.row vehicle - steps, Vehicle.col vehicle) in
             if (r <? 0) || (c <? 0) then true
             else mem (r, c) occupied && negb (mem (r, c) current_my_cells))
          (range 0 (Vehicle.length vehicle)).

(** [for steps in ...: if blocked: break; moves.append(...)]: the step
    counts appended before the first blocked one. *)
Fixpoint scan (blocked : Z -> bool) (steps : list Z) : list Z :=
  match steps with
  | [] => []
  | s :: rest => if blocked s then [] else s :: scan blocked rest
  end.

Definition vehicle_moves (b : Board) (occupied : list Cell)
    (e : string * Vehicle.t) : list Move :=
  let '(v_id, vehicle) := e in
  map (fun steps => (v_id, steps))
      (scan (forward_blocked b occupied vehicle) (range 1 (size b)))
  ++ map (fun steps => (v_id, - steps))
      (scan (backward_blocked b occupied vehicle) (range 1 (size b))).

Definition get_possible_moves (b : Board) : list Move :=
  let occupied := get_occupied_cells b in
  flat_map (vehicle_moves b occupied) (vehicles b).

(** [move]: every vehicle is copied, the named one shifted, and each copy is
    handed to [add_vehicle] of the new board, whose verdict is ignored. *)
Definition move_entry (v_id : string) (steps : Z) (e : string * Vehicle.t)
  : Vehicle.t :=
  let '(vid, v) := e in
  let new_v := Vehicle.copy v in
  if String.eqb vid v_id
  then if Vehicle.is_horizontal new_v
       then Vehicle.add_col new_v steps
       else Vehicle.add_row new_v steps
  else new_v.

Definition move (b : Board) (v_id : string) (steps : Z) : Board :=
  fold_left (fun new_board e => snd (add_vehicle new_board (move_entry v_id steps e)))
            (vehicles b) (new_board (size b)).

(** ** Solver *)

Definition Result : Type := bool * nat * list Move.
Definition Entry : Type := Board * nat * list Move.

Definition MAX_DEPTH : nat := 100.

Definition hash_eq_dec : forall x y : StateHash, {x = y} + {x <> y}.
Proof. repeat decide equality. Defined.

(** [h in visited] *)
Definition seen (h : StateHash) (visited : list StateHash) : bool :=
  if in_dec hash_eq_dec h visited then true else false.

(** The [for v_id, steps in possible_moves] loop of one dequeued node:
    either it returns from [solve_board], or it ends with the queue and the
    visited set extended. *)
Fixpoint expand (current_board : Board) (moves : nat) (path : list Move)
    (possible_moves : list Move)
    (queue : list Entry) (visited : list StateHash)
  : Result + (list Entry * list StateHash) :=
  match possible_moves with
  | [] => inr (queue, visited)
  | (v_id, steps) :: rest =>
      let next_board := move current_board v_id steps in
      let next_hash := get_state_hash next_board in
      if seen next_hash visited
      then expand current_board moves path rest queue visited
      else
        let new_path := (path ++ [(v_id, steps)])%list in
        if is_solved next_board
        then inl (true, S moves, new_path)
        else expand current_board moves path rest
               (queue ++ [(next_board, S moves, new_path)])%list
               (next_hash :: visited)
  end.

(** The [while queue] loop; [fuel] bounds the number of dequeued nodes and
    [None] means the bound was hit before the loop ended. *)
Fixpoint bfs (fuel : nat) (queue : list Entry) (visited : list StateHash)
  : option Result :=
  match queue with
  | [] => Some (false, 0%nat, [])
  | (current_board, moves, path) :: queue' =>
      match fuel with
      | O => None
      | S fuel' =>
          if (MAX_DEPTH <=? moves)%nat
          then bfs fuel' queue' visited
          else
            match expand current_board moves path
                    (get_possible_moves current_board) queue' visited with
            | inl r => Some r
            | inr (queue'', visited') => bfs fuel' queue'' visited'
            end
      end
  end.

Definition solve_board_fuel (fuel : nat) (board : Board) : option Result :=
  let start_hash := get_state_hash board in
  if is_solved board then Some (true, 0%nat, [])
  else bfs fuel [(board, 0%nat, [])] [start_hash].

(** [solve_board board] returns [r]. *)
Definition solve_board_returns (board : Board) (r : Result) : Prop :=
  exists fuel, solve_board_fuel fuel board = Some r.

(** ** Specification vocabulary *)

Definition in_bounds (n : Z) (c : Cell) : Prop :=
  0 <= fst c < n /\ 0 <= snd c < n.

(** Two vehicles share a cell. *)
Definition overlaps (v w : Vehicle.t) : Prop :=
  exists c, In c (Vehicle.occupies v) /\ In c (Vehicle.occupies w).

Definition within (n : Z) (v : Vehicle.t) : Prop :=
  forall c, In c (Vehicle.occupies v) -> in_bounds n c.

Fixpoint pairwise {A : Type} (R : A -> A -> Prop) (l : list A) : Prop :=
  match l with
  | [] => True
  | x :: l' => Forall (R x) l' /\ pairwise R l'
  end.

(** The occupied-cell sets are pairwise disjoint and lie in
    [[0, N) x [0, N)]. *)
Definition cells_ok (b : Board) : Prop :=
  pairwise (fun v w => ~ overlaps v w) (values (vehicles b))
  /\ Forall (within (size b)) (values (vehicles b)).

(** What [add_vehicle] maintains on a board built through it: every vehicle
    is stored under its own id, once, and the cells are fine. *)
Definition well_formed (b : Board) : Prop :=
  Forall (fun e => fst e = Vehicle.id (snd e)) (vehicles b)
  /\ NoDup (keys (vehicles b))
  /\ cells_ok b.

(** A valid board: well formed, with vehicles of positive length. *)
Definition valid_board (b : Board) : Prop :=
  well_formed b
  /\ Forall (fun v => 0 < Vehicle.length v) (values (vehicles b)).

(** The vehicle as it stands after sliding [steps] cells along its axis. *)
Definition slide (v : Vehicle.t) (steps : Z) : Vehicle.t :=
  if Vehicle.is_horizontal v
  then Vehicle.add_col v steps
  else Vehicle.add_row v steps.

(** [add_vehicle] has a reason to refuse [v]. *)
Definition placement_refused (b : Board) (v : Vehicle.t) : Prop :=
  (exists w, In w (values (vehicles b)) /\ overlaps v w)
  \/ (exists c, In c (Vehicle.occupies v) /\ ~ in_bounds (size b) c).

(** Replaying a path with [move]. *)
Definition replay (b : Board) (path : list Move) : Board :=
  fold_left (fun cur m => move cur (fst m) (snd m)) path b.

(** [legal_path b path b']: every move of [path] is one of
    [get_possible_moves] of the board it is applied to, and the path leads
    from [b] to [b']. *)
Inductive legal_path : Board -> list Move -> Board -> Prop :=
| legal_nil b : legal_path b [] b
| legal_cons b m path b' :
    In m (get_possible_moves b) ->
    legal_path (move b (fst m) (snd m)) path b' ->
    legal_path b (m :: path) b'.

Definition scenarioA : Board :=
  mkBoard 6 [("target"%string, Vehicle.mk "target" "horizontal" 2 2 0)].

(** ** Lists, ranges and cells *)

Lemma In_range lo hi x : In x (range lo hi) <-> lo <= x < hi.
Proof.
  unfold range. rewrite in_map_iff. split.
  - intros (i & <- & Hi). apply in_seq in Hi. lia.
  - intros H. exists (Z.to_nat (x - lo)). split; [lia|].
    apply in_seq. lia.
Qed.

Lemma cell_eqb_eq a b : cell_eqb a b = true <-> a = b.
Proof.
  unfold cell_eqb. destruct a, b; simpl.
  rewrite andb_true_iff, !Z.eqb_eq. split; [intros []|intros [=]]; subst; auto.
Qed.

Lemma mem_In c s : mem c s = true <-> In c s.
Proof.
  unfold mem. rewrite existsb_exists. split.
  - intros (x & Hx & E). apply cell_eqb_eq in E. now subst.
  - intros H. exists c. split; [assumption|now apply cell_eqb_eq].
Qed.

Lemma mem_false c s : mem c s = false <-> ~ In c s.
Proof. rewrite <- mem_In. destruct (mem c s); split; congruence. Qed.

Lemma isdisjoint_spec a b :
  isdisjoint a b = true <-> forall c, In c a -> ~ In c b.
Proof.
  unfold isdisjoint. rewrite forallb_forall. split; intros H c Hc.
  - apply H in Hc. apply negb_true_iff in Hc. now apply mem_false.
  - apply negb_true_iff, mem_false. auto.
Qed.

Lemma forallb_false_ex {A} (f : A -> bool) l :
  forallb f l = false -> exists x, In x l /\ f x = false.
Proof.
  induction l as [|a l IH]; simpl; [discriminate|].
  destruct (f a) eqn:E; simpl.
  - intros H. destruct (IH H) as (x & Hx & Hf). eauto.
  - intros _. eauto.
Qed.

Lemma isdisjoint_overlaps v w :
  isdisjoint (Vehicle.occupies v) (Vehicle.occupies w) = false <-> overlaps v w.
Proof.
  unfold overlaps. split.
  - intros H. unfold isdisjoint in H.
    destruct (forallb_false_ex _ _ H) as (c & Hc & E).
    apply negb_false_iff, mem_In in E. eauto.
  - intros (c & Hv & Hw).
    destruct (isdisjoint _ _) eqn:E; [|reflexivity].
    rewrite isdisjoint_spec in E. now apply E in Hv.
Qed.

Lemma In_occupies v c :
  In c (Vehicle.occupies v) <->
  exists i, 0 <= i < Vehicle.length v /\
            c = if Vehicle.is_horizontal v
                then (Vehicle.row v, Vehicle.col v + i)
                else (Vehicle.row v + i, Vehicle.col v).
Proof.
  unfold Vehicle.occupies. rewrite in_map_iff. split.
  - intros (i & <- & Hi). apply In_range in Hi. eauto.
  - intros (i & Hi & ->). exists i. split; [reflexivity|]. now apply In_range.
Qed.

Lemma out_of_bounds_spec n c : out_of_bounds n c = false <-> in_bounds n c.
Proof.
  unfold out_of_bounds, in_bounds.
  rewrite !orb_false_iff, !Z.ltb_ge, !Z.geb_leb, !Z.leb_gt. lia.
Qed.

Lemma overlaps_sym v w : overlaps v w -> overlaps w v.
Proof. intros (c & Hv & Hw). exists c. auto. Qed.

(** ** The dict *)

Section DictFacts.
Context {V : Type}.
Implicit Types (d : dict V) (k : string) (v : V).

Lemma lookup_dict_set_eq k v d : lookup k (dict_set k v d) = Some v.
Proof.
  induction d as [|[k' v'] d IH]; simpl.
  - now rewrite String.eqb_refl.
  - destruct (String.eqb k' k) eqn:E; simpl.
    + now rewrite String.eqb_refl.
    + now rewrite E.
Qed.

Lemma lookup_dict_set_neq k k' v d :
  k' <> k -> lookup k' (dict_set k v d) = lookup k' d.
Proof.
  intros Hne. induction d as [|[k0 v0] d IH]; simpl.
  - destruct (String.eqb_spec k k'); congruence.
  - destruct (String.eqb_spec k0 k) as [->|]; simpl.
    + destruct (String.eqb_spec k k'); congruence.
    + now rewrite IH.
Qed.

Lemma In_values_dict_set k v d w :
  In w (values (dict_set k v d)) -> w = v \/ In w (values d).
Proof.
  induction d as [|[k' v'] d IH]; simpl.
  - intros [<-|[]]; auto.
  - destruct (String.eqb k' k); simpl; intuition.
Qed.

Lemma pairwise_dict_set (R : V -> V -> Prop) k v d :
  pairwise R (values d) ->
  Forall (fun w => R v w /\ R w v) (values d) ->
  pairwise R (values (dict_set k v d)).
Proof.
  induction d as [|[k' v'] d IH]; simpl; intros Hp Hv.
  - auto.
  - destruct Hp as [Hhd Hp]. inversion Hv as [|? ? [_ Hv'] Hvs]; subst.
    destruct (String.eqb k' k); simpl.
    + split; [|assumption]. eapply Forall_impl; [|exact Hvs]. now intros ? [].
    + split; [|now apply IH].
      apply Forall_forall. intros w Hw.
      apply In_values_dict_set in Hw as [->|Hw]; [assumption|].
      rewrite Forall_forall in Hhd. auto.
Qed.

Lemma lookup_In k v d : lookup k d = Some v -> In (k, v) d.
Proof.
  induction d as [|[k' v'] d IH]; simpl; [discriminate|].
  destruct (String.eqb_spec k' k) as [->|]; [intros [= ->]|]; auto.
Qed.

Lemma In_lookup k v d : NoDup (keys d) -> In (k, v) d -> lookup k d = Some v.
Proof.
  induction d as [|[k' v'] d IH]; simpl; [intros _ []|].
  intros Hnd [[= -> ->]|Hin].
  - now rewrite String.eqb_refl.
  - inversion Hnd as [|? ? Hk Hnd']; subst.
    destruct (String.eqb_spec k' k) as [->|]; [|auto].
    exfalso. apply Hk. change k with (fst (k, v)). now apply in_map.
Qed.

Lemma lookup_None k d : lookup k d = None <-> ~ In k (keys d).
Proof.
  induction d as [|[k' v'] d IH]; simpl; [tauto|].
  destruct (String.eqb_spec k' k) as [->|]; [|rewrite IH; tauto].
  split; [discriminate|]. intros H. exfalso. auto.
Qed.
End DictFacts.

(** ** [add_vehicle] *)

Lemma add_vehicle_cases b v :
  (placement_refused b v /\ add_vehicle b v = (false, b))
  \/ (~ placement_refused b v
      /\ add_vehicle b v
         = (true, mkBoard (size b) (dict_set (Vehicle.id v) v (vehicles b)))).
Proof.
  unfold add_vehicle, placement_refused.
  destruct (existsb _ (values (vehicles b))) eqn:Eo.
  { left. split; [left|reflexivity].
    apply existsb_exists in Eo as (w & Hw & E).
    apply negb_true_iff, isdisjoint_overlaps in E. eauto. }
  destruct (existsb _ (Vehicle.occupies v)) eqn:Eb.
  { left. split; [right|reflexivity].
    apply existsb_exists in Eb as (c & Hc & E).
    exists c. split; [assumption|]. intros Hin.
    apply out_of_bounds_spec in Hin. congruence. }
  right. split; [|reflexivity].
  intros [(w & Hw & Hov)|(c & Hc & Hout)].
  - apply isdisjoint_overlaps in Hov.
    assert (existsb (fun v0 => negb (isdisjoint (Vehicle.occupies v)
              (Vehicle.occupies v0))) (values (vehicles b)) = true) as E.
    { apply existsb_exists. exists w. split; [assumption|].
      now rewrite Hov. }
    congruence.
  - assert (existsb (out_of_bounds (size b)) (Vehicle.occupies v) = true) as E.
    { apply existsb_exists. exists c. split; [assumption|].
      destruct (out_of_bounds (size b) c) eqn:E; [reflexivity|].
      now apply out_of_bounds_spec in E. }
    congruence.
Qed.

Lemma add_vehicle_size b v : size (snd (add_vehicle b v)) = size b.
Proof. destruct (add_vehicle_cases b v) as [[_ ->]|[_ ->]]; reflexivity. Qed.

Lemma add_vehicle_cells_ok b v : cells_ok b -> cells_ok (snd (add_vehicle b v)).
Proof.
  intros [Hp Hw].
  destruct (add_vehicle_cases b v) as [[_ ->]|[Hok ->]]; [now split|].
  unfold cells_ok; simpl. split.
  - apply pairwise_dict_set; [assumption|].
    apply Forall_forall. intros w Hw'. split; intros Hov; apply Hok; left; exists w.
    + auto.
    + split; [assumption|now apply overlaps_sym].
  - apply Forall_forall. intros w Hw'.
    apply In_values_dict_set in Hw' as [->|Hw'].
    + intros c Hc.
      destruct (Z_lt_dec (fst c) 0); unfold in_bounds.
      all: destruct (Z_le_dec 0 (fst c)), (Z_lt_dec (fst c) (size b)),
             (Z_le_dec 0 (snd c)), (Z_lt_dec (snd c) (size b)); try lia.
      all: exfalso; apply Hok; right; exists c; split;
             [assumption|unfold in_bounds; lia].
    + rewrite Forall_forall in Hw. auto.
Qed.

(** ** [move] never yields overlapping or out-of-bounds vehicles *)

Lemma rebuild_cells_ok (f : string * Vehicle.t -> Vehicle.t) l nb :
  cells_ok nb ->
  cells_ok (fold_left (fun acc e => snd (add_vehicle acc (f e))) l nb).
Proof.
  revert nb. induction l as [|e l IH]; simpl; intros nb H; [assumption|].
  apply IH. now apply add_vehicle_cells_ok.
Qed.

Lemma rebuild_size (f : string * Vehicle.t -> Vehicle.t) l nb :
  size (fold_left (fun acc e => snd (add_vehicle acc (f e))) l nb) = size nb.
Proof.
  revert nb. induction l as [|e l IH]; simpl; intros nb; [reflexivity|].
  rewrite IH. apply add_vehicle_size.
Qed.

Lemma move_size b v_id steps : size (move b v_id steps) = size b.
Proof. unfold move. now rewrite rebuild_size. Qed.

Lemma move_cells_ok b v_id steps : cells_ok (move b v_id steps).
Proof.
  unfold move. apply rebuild_cells_ok.
  split; simpl; constructor.
Qed.

(** ** Geometry of a vehicle along its axis *)

(** The cell at offset [i] from the anchor, along the vehicle's axis. *)
Definition cell_at (v : Vehicle.t) (i : Z) : Cell :=
  if Vehicle.is_horizontal v
  then (Vehicle.row v, Vehicle.col v + i)
  else (Vehicle.row v + i, Vehicle.col v).

(** [v'] fits on [b] in place of the vehicle stored under [k]: its cells are
    in bounds and none is occupied by a different vehicle. *)
Definition free_for (b : Board) (k : string) (v' : Vehicle.t) : Prop :=
  within (size b) v'
  /\ forall k' w, In (k', w) (vehicles b) -> k' <> k -> ~ overlaps v' w.

(** Every step count from 1 to [|s|], in the direction of [s], is a slide
    that neither leaves the grid nor meets a different vehicle. *)
Definition clear_lane (b : Board) (k : string) (v : Vehicle.t) (s : Z) : Prop :=
  (0 < s /\ forall t, 0 < t <= s -> free_for b k (slide v t))
  \/ (s < 0 /\ forall t, s <= t < 0 -> free_for b k (slide v t)).

Lemma cell_at_inj v i j : cell_at v i = cell_at v j -> i = j.
Proof. unfold cell_at. destruct (Vehicle.is_horizontal v); intros [=]; lia. Qed.

Lemma In_occupies_at v c :
  In c (Vehicle.occupies v) <-> exists i, 0 <= i < Vehicle.length v /\ c = cell_at v i.
Proof. apply In_occupies. Qed.

Lemma cell_at_own v j :
  In (cell_at v j) (Vehicle.occupies v) <-> 0 <= j < Vehicle.length v.
Proof.
  rewrite In_occupies_at. split.
  - intros (i & Hi & E). apply cell_at_inj in E. lia.
  - eauto.
Qed.

Lemma In_occupies_slide v s c :
  In c (Vehicle.occupies (slide v s)) <->
  exists i, 0 <= i < Vehicle.length v /\ c = cell_at v (s + i).
Proof.
  rewrite In_occupies_at.
  assert (forall i, cell_at (slide v s) i = cell_at v (s + i)) as E.
  { intros i. unfold slide, cell_at, Vehicle.is_horizontal.
    destruct (String.eqb (Vehicle.orientation v) "horizontal") eqn:Eh;
      simpl; rewrite Eh; f_equal; lia. }
  assert (Vehicle.length (slide v s) = Vehicle.length v) as El.
  { unfold slide. now destruct (Vehicle.is_horizontal v). }
  rewrite El. split; intros (i & Hi & ->); exists i; now rewrite E in *.
Qed.

Lemma cell_at_between n v a b i :
  in_bounds n (cell_at v a) -> in_bounds n (cell_at v b) -> a <= i <= b ->
  in_bounds n (cell_at v i).
Proof.
  unfold in_bounds, cell_at. destruct (Vehicle.is_horizontal v); simpl; lia.
Qed.

Lemma cell_at_above n v a i :
  in_bounds n (cell_at v a) -> a <= i ->
  fst (cell_at v i) < n -> snd (cell_at v i) < n ->
  in_bounds n (cell_at v i).
Proof.
  unfold in_bounds, cell_at. destruct (Vehicle.is_horizontal v); simpl; lia.
Qed.

Lemma cell_at_below n v a i :
  in_bounds n (cell_at v a) -> i <= a ->
  0 <= fst (cell_at v i) -> 0 <= snd (cell_at v i) ->
  in_bounds n (cell_at v i).
Proof.
  unfold in_bounds, cell_at. destruct (Vehicle.is_horizontal v); simpl; lia.
Qed.

Lemma cell_at_span n v a b :
  in_bounds n (cell_at v a) -> in_bounds n (cell_at v b) -> b - a < n.
Proof.
  unfold in_bounds, cell_at. destruct (Vehicle.is_horizontal v); simpl; lia.
Qed.

(** ** The probes of [get_possible_moves] *)

Lemma existsb_const (x : bool) n :
  existsb (fun _ : Z => x) (range 0 n) = (0 <? n) && x.
Proof.
  destruct (Z.ltb_spec 0 n) as [H|H]; simpl.
  - destruct x.
    + apply existsb_exists. exists 0. split; [apply In_range; lia|reflexivity].
    + induction (range 0 n); simpl; auto.
  - unfold range. replace (Z.to_nat (n - 0)) with O by lia. reflexivity.
Qed.

Lemma forward_blocked_spec b occupied v t :
  forward_blocked b occupied v t = false <->
  Vehicle.length v <= 0
  \/ (let c := cell_at v (Vehicle.length v - 1 + t) in
      fst c < size b /\ snd c < size b
      /\ (In c occupied -> In c (Vehicle.occupies v))).
Proof.
  unfold forward_blocked, cell_at.
  destruct (Vehicle.is_horizontal v); rewrite existsb_const; cbv zeta; simpl.
  all: rewrite andb_false_iff, Z.ltb_ge, ?Z.add_assoc, ?Z.add_sub_assoc.
  all: match goal with
       | |- context [mem ?c ?o && negb (mem ?c ?m)] =>
           pose proof (mem_In c o); pose proof (mem_In c m);
           destruct (mem c o), (mem c m)
       end.
  all: repeat match goal with
       | |- context [(?x >=? ?y)] =>
           rewrite (Z.geb_leb x y); destruct (Z.leb_spec y x)
       end; simpl.
  all: intuition (try lia; try discriminate).
Qed.

Lemma backward_blocked_spec b occupied v t :
  backward_blocked b occupied v t = false <->
  Vehicle.length v <= 0
  \/ (let c := cell_at v (- t) in
      0 <= fst c /\ 0 <= snd c
      /\ (In c occupied -> In c (Vehicle.occupies v))).
Proof.
  unfold backward_blocked, cell_at.
  destruct (Vehicle.is_horizontal v); rewrite existsb_const; cbv zeta; simpl.
  all: rewrite andb_false_iff, Z.ltb_ge.
  all: replace (Vehicle.col v + - t) with (Vehicle.col v - t) by lia.
  all: replace (Vehicle.row v + - t) with (Vehicle.row v - t) by lia.
  all: match goal with
       | |- context [mem ?c ?o && negb (mem ?c ?m)] =>
           pose proof (mem_In c o); pose proof (mem_In c m);
           destruct (mem c o), (mem c m)
       end.
  all: repeat match goal with
       | |- context [(?x <? ?y)] => destruct (Z.ltb_spec x y)
       end; simpl.
  all: intuition (try lia; try discriminate).
Qed.

Lemma range_cons lo hi : lo < hi -> range lo hi = lo :: range (lo + 1) hi.
Proof.
  intros H. unfold range.
  replace (Z.to_nat (hi - lo)) with (S (Z.to_nat (hi - (lo + 1)))) by lia.
  simpl. f_equal; [lia|].
  rewrite <- seq_shift, map_map. apply map_ext. intros. lia.
Qed.

Lemma range_nil lo hi : hi <= lo -> range lo hi = [].
Proof. intros H. unfold range. now replace (Z.to_nat (hi - lo)) with O by lia. Qed.

Lemma In_scan blocked lo hi s :
  In s (scan blocked (range lo hi)) <->
  lo <= s < hi /\ forall t, lo <= t <= s -> blocked t = false.
Proof.
  remember (Z.to_nat (hi - lo)) as n eqn:En. revert lo En.
  induction n as [|n IH]; intros lo En.
  - rewrite range_nil by lia. simpl. split; [intros []|lia].
  - rewrite range_cons by lia. simpl.
    destruct (blocked lo) eqn:Eb; simpl.
    + split; [intros []|]. intros [Hs Hall]. rewrite Hall in Eb by lia. discriminate.
    + rewrite IH by lia. split.
      * intros [<-|[Hs Hall]].
        -- split; [lia|]. intros t Ht. now replace t with lo by lia.
        -- split; [lia|]. intros t Ht.
           destruct (Z.eq_dec t lo) as [->|]; [assumption|apply Hall; lia].
      * intros [Hs Hall].
        destruct (Z.eq_dec s lo) as [->|]; [now left|right].
        split; [lia|]. intros t Ht. apply Hall. lia.
Qed.

Lemma In_get_possible_moves b k s :
  In (k, s) (get_possible_moves b) <->
  exists v, In (k, v) (vehicles b)
    /\ ((1 <= s < size b
         /\ forall t, 1 <= t <= s ->
              forward_blocked b (get_occupied_cells b) v t = false)
        \/ (1 <= - s < size b
            /\ forall t, 1 <= t <= - s ->
                 backward_blocked b (get_occupied_cells b) v t = false)).
Proof.
  unfold get_possible_moves. rewrite in_flat_map. split.
  - intros ([k' v] & Hin & Hm). unfold vehicle_moves in Hm.
    apply in_app_or in Hm as [Hm|Hm]; apply in_map_iff in Hm as (t & [= -> <-] & Ht);
      apply In_scan in Ht; exists v; (split; [assumption|]).
    + left. assumption.
    + right. now rewrite Z.opp_involutive.
  - intros (v & Hin & H). exists (k, v). split; [assumption|].
    unfold vehicle_moves. apply in_or_app.
    destruct H as [H|H]; [left|right]; apply in_map_iff.
    + exists s. split; [reflexivity|now apply In_scan].
    + exists (- s). split; [f_equal; lia|now apply In_scan].
Qed.

Lemma In_get_occupied_cells b c :
  In c (get_occupied_cells b) <->
  exists k w, In (k, w) (vehicles b) /\ In c (Vehicle.occupies w).
Proof.
  unfold get_occupied_cells, values. rewrite in_flat_map. split.
  - intros (w & Hw & Hc). apply in_map_iff in Hw as ([k w'] & <- & Hin). eauto.
  - intros (k & w & Hin & Hc). exists w. split; [|assumption].
    apply in_map_iff. now exists (k, w).
Qed.

(** ** Well-formed boards *)

Lemma pairwise_In {V : Type} (R : V -> V -> Prop) (d : dict V) k v k' w :
  (forall x y, R x y -> R y x) ->
  pairwise R (values d) ->
  In (k, v) d -> In (k', w) d -> k <> k' -> R v w.
Proof.
  intros Hsym. induction d as [|[k0 v0] d IH]; simpl; [intros _ []|].
  intros [Hhd Hp] [[= -> ->]|Hv] [[= -> ->]|Hw] Hne; try congruence; auto.
  - rewrite Forall_forall in Hhd. apply Hhd.
    change w with (snd (k', w)). now apply in_map.
  - rewrite Forall_forall in Hhd. apply Hsym, Hhd.
    change v with (snd (k, v)). now apply in_map.
Qed.

Lemma wf_disjoint b k v k' w :
  well_formed b -> In (k, v) (vehicles b) -> In (k', w) (vehicles b) ->
  k <> k' -> ~ overlaps v w.
Proof.
  intros (_ & _ & Hp & _). apply (pairwise_In (fun x y => ~ overlaps x y)); auto.
  intros x y H Hov. now apply H, overlaps_sym.
Qed.

Lemma wf_within b k v :
  well_formed b -> In (k, v) (vehicles b) -> within (size b) v.
Proof.
  intros (_ & _ & _ & Hw) Hin. rewrite Forall_forall in Hw. apply Hw.
  change v with (snd (k, v)). now apply in_map.
Qed.

Lemma wf_unique b k v w :
  well_formed b -> In (k, v) (vehicles b) -> In (k, w) (vehicles b) -> v = w.
Proof.
  intros (_ & Hnd & _) Hv Hw.
  apply (In_lookup _ _ _ Hnd) in Hv. apply (In_lookup _ _ _ Hnd) in Hw. congruence.
Qed.

Lemma wf_key b k v :
  well_formed b -> In (k, v) (vehicles b) -> k = Vehicle.id v.
Proof.
  intros (Hk & _) Hin. rewrite Forall_forall in Hk. exact (Hk _ Hin).
Qed.

(** ** A probe that passes is a slide that fits, and conversely *)

Lemma forward_free b k v s :
  well_formed b -> In (k, v) (vehicles b) -> 1 <= s ->
  (forall t, 1 <= t <= s ->
     forward_blocked b (get_occupied_cells b) v t = false) ->
  free_for b k (slide v s).
Proof.
  intros Hwf Hin Hs Hall.
  assert (forall i, 0 <= i < Vehicle.length v ->
            in_bounds (size b) (cell_at v (s + i))
            /\ forall k' w, In (k', w) (vehicles b) -> k' <> k ->
                 ~ In (cell_at v (s + i)) (Vehicle.occupies w)) as Hcell.
  { intros i Hi.
    pose proof (wf_within _ _ _ Hwf Hin) as Hw.
    destruct (Z_lt_le_dec (s + i) (Vehicle.length v)) as [Hlt|Hge].
    - assert (In (cell_at v (s + i)) (Vehicle.occupies v)) as Hown
          by (apply cell_at_own; lia).
      split; [now apply Hw|].
      intros k' w Hw' Hne Hc.
      apply (wf_disjoint _ _ _ _ _ Hwf Hin Hw'); [congruence|].
      now exists (cell_at v (s + i)).
    - specialize (Hall (s + i - (Vehicle.length v - 1)) ltac:(lia)).
      apply forward_blocked_spec in Hall as [Hl|Hfront]; [lia|].
      replace (Vehicle.length v - 1 + (s + i - (Vehicle.length v - 1)))
        with (s + i) in Hfront by lia.
      cbv zeta in Hfront. destruct Hfront as (Hr & Hc & Hocc).
      split.
      + apply (cell_at_above _ _ 0); [|lia|assumption|assumption].
        apply Hw, cell_at_own. lia.
      + intros k' w Hw' _ Hcw.
        assert (In (cell_at v (s + i)) (Vehicle.occupies v)) as Hown.
        { apply Hocc, In_get_occupied_cells. eauto. }
        apply cell_at_own in Hown. lia. }
  split.
  - intros c Hc. apply In_occupies_slide in Hc as (i & Hi & ->).
    now apply Hcell.
  - intros k' w Hw Hne (c & Hc & Hcw).
    apply In_occupies_slide in Hc as (i & Hi & ->).
    destruct (Hcell i Hi) as [_ H]. exact (H _ _ Hw Hne Hcw).
Qed.

Lemma backward_free b k v s :
  well_formed b -> In (k, v) (vehicles b) -> 1 <= s ->
  (forall t, 1 <= t <= s ->
     backward_blocked b (get_occupied_cells b) v t = false) ->
  free_for b k (slide v (- s)).
Proof.
  intros Hwf Hin Hs Hall.
  assert (forall i, 0 <= i < Vehicle.length v ->
            in_bounds (size b) (cell_at v (- s + i))
            /\ forall k' w, In (k', w) (vehicles b) -> k' <> k ->
                 ~ In (cell_at v (- s + i)) (Vehicle.occupies w)) as Hcell.
  { intros i Hi.
    pose proof (wf_within _ _ _ Hwf Hin) as Hw.
    destruct (Z_le_gt_dec 0 (- s + i)) as [Hge|Hlt].
    - assert (In (cell_at v (- s + i)) (Vehicle.occupies v)) as Hown
          by (apply cell_at_own; lia).
      split; [now apply Hw|].
      intros k' w Hw' Hne Hc.
      apply (wf_disjoint _ _ _ _ _ Hwf Hin Hw'); [congruence|].
      now exists (cell_at v (- s + i)).
    - specialize (Hall (s - i) ltac:(lia)).
      apply backward_blocked_spec in Hall as [Hl|Hback]; [lia|].
      replace (- (s - i)) with (- s + i) in Hback by lia.
      cbv zeta in Hback. destruct Hback as (Hr & Hc & Hocc).
      split.
      + apply (cell_at_below _ _ 0); [|lia|assumption|assumption].
        apply Hw, cell_at_own. lia.
      + intros k' w Hw' _ Hcw.
        assert (In (cell_at v (- s + i)) (Vehicle.occupies v)) as Hown.
        { apply Hocc, In_get_occupied_cells. eauto. }
        apply cell_at_own in Hown. lia. }
  split.
  - intros c Hc. apply In_occupies_slide in Hc as (i & Hi & ->).
    now apply Hcell.
  - intros k' w Hw Hne (c & Hc & Hcw).
    apply In_occupies_slide in Hc as (i & Hi & ->).
    destruct (Hcell i Hi) as [_ H]. exact (H _ _ Hw Hne Hcw).
Qed.

Lemma occupied_own_or_other b k v c :
  well_formed b -> In (k, v) (vehicles b) ->
  (forall k' w, In (k', w) (vehicles b) -> k' <> k ->
     ~ In c (Vehicle.occupies w)) ->
  In c (get_occupied_cells b) -> In c (Vehicle.occupies v).
Proof.
  intros Hwf Hin Hother Hocc.
  apply In_get_occupied_cells in Hocc as (k' & w & Hw & Hc).
  destruct (string_dec k' k) as [->|Hne].
  - now rewrite (wf_unique _ _ _ _ Hwf Hin Hw).
  - now destruct (Hother _ _ Hw Hne).
Qed.

Lemma free_forward b k v t :
  well_formed b -> In (k, v) (vehicles b) -> 0 < Vehicle.length v -> 0 < t ->
  free_for b k (slide v t) ->
  forward_blocked b (get_occupied_cells b) v t = false /\ t < size b.
Proof.
  intros Hwf Hin Hlen Ht [Hw Hno].
  pose proof (wf_within _ _ _ Hwf Hin) as Hown.
  assert (In (cell_at v (Vehicle.length v - 1 + t)) (Vehicle.occupies (slide v t)))
    as Hfront.
  { apply In_occupies_slide. exists (Vehicle.length v - 1).
    split; [lia|f_equal; lia]. }
  pose proof (Hw _ Hfront) as Hb.
  split.
  - apply forward_blocked_spec. right. cbv zeta.
    split; [apply Hb|]. split; [apply Hb|].
    apply (occupied_own_or_other _ k); try assumption.
    intros k' w Hw' Hne Hc. apply (Hno _ _ Hw' Hne). eexists; eauto.
  - assert (in_bounds (size b) (cell_at v 0)) as H0
        by (apply Hown, cell_at_own; lia).
    pose proof (cell_at_span _ _ _ _ H0 Hb). lia.
Qed.

Lemma free_backward b k v t :
  well_formed b -> In (k, v) (vehicles b) -> 0 < Vehicle.length v -> 0 < t ->
  free_for b k (slide v (- t)) ->
  backward_blocked b (get_occupied_cells b) v t = false /\ t < size b.
Proof.
  intros Hwf Hin Hlen Ht [Hw Hno].
  pose proof (wf_within _ _ _ Hwf Hin) as Hown.
  assert (In (cell_at v (- t)) (Vehicle.occupies (slide v (- t)))) as Hback.
  { apply In_occupies_slide. exists 0. split; [lia|f_equal; lia]. }
  pose proof (Hw _ Hback) as Hb.
  split.
  - apply backward_blocked_spec. right. cbv zeta.
    split; [apply Hb|]. split; [apply Hb|].
    apply (occupied_own_or_other _ k); try assumption.
    intros k' w Hw' Hne Hc. apply (Hno _ _ Hw' Hne). eexists; eauto.
  - assert (in_bounds (size b) (cell_at v (Vehicle.length v - 1))) as H1
        by (apply Hown, cell_at_own; lia).
    pose proof (cell_at_span _ _ _ _ Hb H1). lia.
Qed.

(** On a well-formed board a move of [get_possible_moves] is a slide that
    fits, together with every shorter slide in the same direction. *)
Lemma legal_clear_lane b k s :
  well_formed b -> In (k, s) (get_possible_moves b) ->
  exists v, In (k, v) (vehicles b) /\ clear_lane b k v s.
Proof.
  intros Hwf Hm. apply In_get_possible_moves in Hm as (v & Hin & H).
  exists v. split; [assumption|].
  destruct H as [[Hs Hall]|[Hs Hall]]; [left|right]; (split; [lia|]); intros t Ht.
  - apply forward_free; auto; try lia. intros u Hu. apply Hall. lia.
  - replace t with (- - t) by lia.
    apply backward_free; auto; try lia. intros u Hu. apply Hall. lia.
Qed.

Lemma legal_free b k s :
  well_formed b -> In (k, s) (get_possible_moves b) ->
  exists v, In (k, v) (vehicles b) /\ free_for b k (slide v s).
Proof.
  intros Hwf Hm. destruct (legal_clear_lane _ _ _ Hwf Hm) as (v & Hin & H).
  exists v. split; [assumption|].
  destruct H as [[Hs H]|[Hs H]]; apply H; lia.
Qed.

(** ** [move] on a legal move keeps every vehicle *)

Lemma copy_eq v : Vehicle.copy v = v.
Proof. now destruct v. Qed.

Lemma move_entry_eq v_id steps e :
  move_entry v_id steps e
  = if String.eqb (fst e) v_id then slide (snd e) steps else snd e.
Proof. destruct e as [k v]. unfold move_entry. now rewrite copy_eq. Qed.

Lemma slide_id v s : Vehicle.id (slide v s) = Vehicle.id v.
Proof. unfold slide. now destruct (Vehicle.is_horizontal v). Qed.

Lemma slide_orientation v s :
  Vehicle.orientation (slide v s) = Vehicle.orientation v.
Proof. unfold slide. now destruct (Vehicle.is_horizontal v). Qed.

Lemma slide_length v s : Vehicle.length (slide v s) = Vehicle.length v.
Proof. unfold slide. now destruct (Vehicle.is_horizontal v). Qed.

Lemma dict_set_new {V : Type} k (v : V) d :
  ~ In k (keys d) -> dict_set k v d = (d ++ [(k, v)])%list.
Proof.
  induction d as [|[k' v'] d IH]; simpl; [reflexivity|]. intros Hk.
  destruct (String.eqb_spec k' k) as [->|]; [tauto|].
  rewrite IH; tauto.
Qed.

Lemma pairwise_app_mid {A : Type} (R : A -> A -> Prop) l1 x l2 :
  pairwise R (l1 ++ x :: l2) -> forall y, In y l1 -> R y x.
Proof.
  induction l1 as [|a l1 IH]; simpl; [intros _ ? []|].
  intros [Hhd Hp] y [<-|Hy]; [|now apply IH].
  rewrite Forall_forall in Hhd. apply Hhd, in_elt.
Qed.

(** Re-inserting, in order, a list of vehicles that are fine together gives
    back exactly that list. *)
Lemma rebuild_exact n (vs : list Vehicle.t) (pre : list Vehicle.t) :
  let entry := fun v => (Vehicle.id v, v) in
  NoDup (map Vehicle.id (pre ++ vs)) ->
  pairwise (fun v w => ~ overlaps v w) (pre ++ vs) ->
  Forall (within n) (pre ++ vs) ->
  fold_left (fun acc v => snd (add_vehicle acc v)) vs (mkBoard n (map entry pre))
  = mkBoard n (map entry (pre ++ vs)).
Proof.
  intros entry. revert pre.
  induction vs as [|v vs IH]; intros pre Hnd Hp Hw; simpl.
  - now rewrite app_nil_r.
  - assert (values (map entry pre) = pre) as Evals.
    { unfold values. rewrite map_map. simpl. apply map_id. }
    assert (keys (map entry pre) = map Vehicle.id pre) as Ekeys.
    { unfold keys. rewrite map_map. reflexivity. }
    destruct (add_vehicle_cases (mkBoard n (map entry pre)) v) as [[Href _]|[_ ->]].
    + exfalso. destruct Href as [(w & Hin & Hov)|(c & Hc & Hout)]; simpl in *.
      * rewrite Evals in Hin.
        apply (pairwise_app_mid _ _ _ _ Hp w Hin). now apply overlaps_sym.
      * rewrite Forall_forall in Hw. apply Hout, (Hw v); [apply in_elt|assumption].
    + simpl. rewrite dict_set_new.
      * replace (map entry pre ++ [(Vehicle.id v, v)])%list
          with (map entry (pre ++ [v])) by (now rewrite map_app).
        rewrite IH; rewrite <- app_assoc; simpl; solve [reflexivity|assumption].
      * rewrite Ekeys. rewrite map_app in Hnd. simpl in Hnd.
        apply NoDup_remove_2 in Hnd. intros Hin. apply Hnd, in_or_app. auto.
Qed.

(** The vehicle mapping after sliding the vehicle stored under [k]. *)
Definition slid (k : string) (s : Z) (d : dict Vehicle.t) : dict Vehicle.t :=
  map (fun e => (fst e, if String.eqb (fst e) k then slide (snd e) s else snd e)) d.

Lemma keys_slid k s d : keys (slid k s d) = keys d.
Proof. unfold keys, slid. rewrite map_map. reflexivity. Qed.

Lemma slid_other k s (d : dict Vehicle.t) :
  ~ In k (keys d) -> slid k s d = d.
Proof.
  induction d as [|[k' v] d IH]; simpl; [reflexivity|]. intros Hk.
  destruct (String.eqb_spec k' k) as [->|]; [tauto|].
  rewrite IH; tauto.
Qed.

Lemma In_values_slid k s d w :
  In w (values (slid k s d)) ->
  (exists k', In (k', w) d /\ k' <> k) \/ (exists v, In (k, v) d /\ w = slide v s).
Proof.
  unfold values, slid. rewrite map_map, in_map_iff. simpl.
  intros ([k' v] & <- & Hin). simpl.
  destruct (String.eqb_spec k' k) as [->|]; eauto.
Qed.

Lemma slid_pairwise b k v s :
  well_formed b -> In (k, v) (vehicles b) -> free_for b k (slide v s) ->
  pairwise (fun x y => ~ overlaps x y) (values (slid k s (vehicles b))).
Proof.
  intros Hwf Hin [_ Hfree].
  assert (forall k' w, In (k', w) (vehicles b) -> k' <> k ->
            ~ overlaps (slide v s) w /\ ~ overlaps w (slide v s)) as Hf.
  { intros k' w Hw Hne. split; [exact (Hfree _ _ Hw Hne)|].
    intros H. apply overlaps_sym in H. exact (Hfree _ _ Hw Hne H). }
  assert (forall w, In (k, w) (vehicles b) -> w = v) as Huniq.
  { intros w Hw. symmetry. eapply wf_unique; eauto. }
  destruct Hwf as (_ & Hnd & Hp & _). clear Hfree Hin.
  induction (vehicles b) as [|[k0 v0] d IH]; simpl; [trivial|].
  simpl in Hp, Hnd. destruct Hp as [Hhd Hp]. inversion Hnd as [|? ? Hk0 Hnd']; subst.
  destruct (String.eqb_spec k0 k) as [->|Hne].
  - fold (slid k s d). rewrite slid_other by assumption.
    rewrite (Huniq v0) by now left.
    split; [|assumption].
    apply Forall_forall. intros w Hw. apply in_map_iff in Hw as ([k' w'] & <- & Hw).
    simpl. apply (Hf k'); [now right|].
    intros ->. apply Hk0. change k with (fst (k, w')). now apply in_map.
  - fold (slid k s d). split.
    + apply Forall_forall. intros w Hw.
      apply In_values_slid in Hw as [(k' & Hw & _)|(v' & Hw & ->)].
      * rewrite Forall_forall in Hhd. apply Hhd.
        change w with (snd (k', w)). now apply in_map.
      * rewrite (Huniq v') by now right. apply (Hf k0); [now left|assumption].
    + apply IH; auto.
      * intros k' w Hw. apply Hf. now right.
      * intros w Hw. apply Huniq. now right.
Qed.

Lemma slid_within b k v s :
  well_formed b -> In (k, v) (vehicles b) -> free_for b k (slide v s) ->
  Forall (within (size b)) (values (slid k s (vehicles b))).
Proof.
  intros Hwf Hin [Hw _]. apply Forall_forall. intros w Hin'.
  apply In_values_slid in Hin' as [(k' & Hin' & _)|(v' & Hin' & ->)].
  - eapply wf_within; eauto.
  - now rewrite <- (wf_unique _ _ _ _ Hwf Hin Hin').
Qed.

Lemma slid_keyed b k s :
  well_formed b ->
  Forall (fun e => fst e = Vehicle.id (snd e)) (slid k s (vehicles b)).
Proof.
  intros (Hk & _). unfold slid. apply Forall_forall. intros e He.
  apply in_map_iff in He as (e0 & <- & He0). simpl.
  rewrite Forall_forall in Hk. specialize (Hk _ He0).
  destruct (String.eqb (fst e0) k); [now rewrite slide_id|assumption].
Qed.

Lemma move_legal b k s :
  well_formed b -> In (k, s) (get_possible_moves b) ->
  move b k s = mkBoard (size b) (slid k s (vehicles b)).
Proof.
  intros Hwf Hm. destruct (legal_free _ _ _ Hwf Hm) as (v & Hin & Hfree).
  pose proof (slid_keyed b k s Hwf) as Hkeyed.
  assert (map (fun w => (Vehicle.id w, w)) (values (slid k s (vehicles b)))
          = slid k s (vehicles b)) as Eentries.
  { unfold values. rewrite map_map. rewrite <- (map_id (slid k s (vehicles b))) at 2.
    apply map_ext_in. intros [k' w] He. rewrite Forall_forall in Hkeyed.
    specialize (Hkeyed _ He). simpl in *. now subst. }
  unfold move.
  assert (forall l acc,
            fold_left (fun nb e => snd (add_vehicle nb (move_entry k s e))) l acc
            = fold_left (fun nb w => snd (add_vehicle nb w)) (values (slid k s l)) acc)
    as Efold.
  { induction l as [|e l IH]; intros acc; simpl; [reflexivity|].
    now rewrite IH, move_entry_eq. }
  rewrite Efold.
  pose proof (rebuild_exact (size b) (values (slid k s (vehicles b))) []) as H.
  simpl in H. unfold new_board. rewrite H.
  - now rewrite Eentries.
  - replace (map Vehicle.id (values (slid k s (vehicles b))))
      with (keys (slid k s (vehicles b))).
    + rewrite keys_slid. apply Hwf.
    + rewrite <- Eentries at 1. unfold keys. rewrite map_map. reflexivity.
  - eapply slid_pairwise; eauto.
  - eapply slid_within; eauto.
Qed.

Lemma move_legal_wf b k s :
  well_formed b -> In (k, s) (get_possible_moves b) ->
  well_formed (move b k s).
Proof.
  intros Hwf Hm. rewrite (move_legal _ _ _ Hwf Hm).
  split; [|split]; simpl.
  - now apply slid_keyed.
  - rewrite keys_slid. apply Hwf.
  - rewrite <- (move_legal _ _ _ Hwf Hm). apply move_cells_ok.
Qed.

(** ** The state hash identifies a board among the boards of one puzzle *)

(** What no move changes: the size and, per entry, key, id, orientation and
    length. *)
Definition shape (b : Board) : Z * list (string * string * string * Z) :=
  (size b,
   map (fun e => (fst e, Vehicle.id (snd e), Vehicle.orientation (snd e),
                  Vehicle.length (snd e)))
       (vehicles b)).

Lemma shape_keys b1 b2 :
  shape b1 = shape b2 -> keys (vehicles b1) = keys (vehicles b2).
Proof.
  unfold shape, keys. intros [= _ H].
  apply (f_equal (map (fun x : string * string * string * Z => fst (fst (fst x))))) in H.
  now rewrite !map_map in H.
Qed.

Lemma shape_move_legal b k s :
  well_formed b -> In (k, s) (get_possible_moves b) ->
  shape (move b k s) = shape b.
Proof.
  intros Hwf Hm. rewrite (move_legal _ _ _ Hwf Hm). unfold shape, slid. simpl.
  f_equal. rewrite map_map. apply map_ext. intros [k' v]. simpl.
  destruct (String.eqb k' k);
    now rewrite ?slide_id, ?slide_orientation, ?slide_length.
Qed.

Lemma In_sorted k l : In k (sorted l) <-> In k l.
Proof.
  unfold sorted. split; apply Permutation_in;
    [apply Permutation_sym|]; apply StringSort.Permuted_sort.
Qed.

Lemma hash_entries b1 b2 l :
  (forall k, In k l -> In k (keys (vehicles b1)) /\ In k (keys (vehicles b2))) ->
  flat_map (fun v_id =>
              match lookup v_id (vehicles b1) with
              | Some v => [(v_id, Vehicle.row v, Vehicle.col v)]
              | None => []
              end) l
  = flat_map (fun v_id =>
              match lookup v_id (vehicles b2) with
              | Some v => [(v_id, Vehicle.row v, Vehicle.col v)]
              | None => []
              end) l ->
  forall k v1 v2, In k l ->
    lookup k (vehicles b1) = Some v1 -> lookup k (vehicles b2) = Some v2 ->
    Vehicle.row v1 = Vehicle.row v2 /\ Vehicle.col v1 = Vehicle.col v2.
Proof.
  induction l as [|k0 l IH]; simpl; intros Hin E k v1 v2 Hk H1 H2; [contradiction|].
  destruct (Hin k0 (or_introl eq_refl)) as [Hk1 Hk2].
  destruct (lookup k0 (vehicles b1)) as [w1|] eqn:E1;
    [|apply lookup_None in E1; contradiction].
  destruct (lookup k0 (vehicles b2)) as [w2|] eqn:E2;
    [|apply lookup_None in E2; contradiction].
  simpl in E. injection E as Er Ec Erest.
  destruct Hk as [->|Hk].
  - rewrite H1 in E1. rewrite H2 in E2. injection E1 as ->. injection E2 as ->. auto.
  - eapply IH; eauto.
Qed.

Lemma same_shape_same_places (d1 d2 : dict Vehicle.t) :
  map (fun e => (fst e, Vehicle.id (snd e), Vehicle.orientation (snd e),
                 Vehicle.length (snd e))) d1
  = map (fun e => (fst e, Vehicle.id (snd e), Vehicle.orientation (snd e),
                   Vehicle.length (snd e))) d2 ->
  NoDup (keys d1) ->
  (forall k v1 v2, lookup k d1 = Some v1 -> lookup k d2 = Some v2 ->
     Vehicle.row v1 = Vehicle.row v2 /\ Vehicle.col v1 = Vehicle.col v2) ->
  d1 = d2.
Proof.
  revert d2. induction d1 as [|[k1 v1] d1 IH]; intros [|[k2 v2] d2]; simpl;
    try discriminate; [reflexivity|].
  intros [= -> Eid Eor Elen Erest] Hnd Hpos.
  inversion Hnd as [|? ? Hk1 Hnd']; subst.
  destruct (Hpos k2 v1 v2) as [Er Ec]; try (now rewrite String.eqb_refl).
  f_equal.
  - destruct v1, v2; simpl in *; now subst.
  - apply IH; auto. intros k w1 w2 H1 H2.
    apply (Hpos k); destruct (String.eqb_spec k2 k) as [->|]; auto.
    all: exfalso; apply Hk1; apply lookup_In in H1;
      change k with (fst (k, w1)); now apply in_map.
Qed.

Lemma hash_inj b1 b2 :
  shape b1 = shape b2 -> NoDup (keys (vehicles b1)) ->
  get_state_hash b1 = get_state_hash b2 -> b1 = b2.
Proof.
  intros Hs Hnd Hh. pose proof (shape_keys _ _ Hs) as Hk.
  unfold get_state_hash in Hh. rewrite <- Hk in Hh.
  destruct b1 as [n1 d1], b2 as [n2 d2]. simpl in *.
  injection Hs as -> Hs. f_equal.
  apply same_shape_same_places; auto.
  intros k v1 v2 H1 H2.
  apply (hash_entries (mkBoard n2 d1) (mkBoard n2 d2) (sorted (keys d1))) with (k := k);
    simpl; try assumption.
  - intros k' Hk'. apply -> In_sorted in Hk'. split; [|rewrite <- Hk]; assumption.
  - apply In_sorted. apply lookup_In in H1.
    change k with (fst (k, v1)). now apply in_map.
Qed.

(** ** Paths of legal moves *)

(** [reach b0 j b]: [b] is reached from [b0] by [j] legal moves. *)
Inductive reach (b0 : Board) : nat -> Board -> Prop :=
| reach_O : reach b0 O b0
| reach_S j b m :
    reach b0 j b -> In m (get_possible_moves b) ->
    reach b0 (S j) (move b (fst m) (snd m)).

Lemma legal_path_snoc b p b' m :
  legal_path b p b' -> In m (get_possible_moves b') ->
  legal_path b (p ++ [m]) (move b' (fst m) (snd m)).
Proof.
  induction 1 as [b|b m0 p b' Hm0 Hp IH]; simpl; intros Hm.
  - apply legal_cons; [assumption|apply legal_nil].
  - apply legal_cons; auto.
Qed.

Lemma reach_cons b0 m j b :
  In m (get_possible_moves b0) ->
  reach (move b0 (fst m) (snd m)) j b -> reach b0 (S j) b.
Proof.
  intros Hm. induction 1 as [|j b m' Hr IH Hm'].
  - apply (reach_S b0 O b0 m); [apply reach_O|assumption].
  - apply reach_S; assumption.
Qed.

Lemma legal_path_reach b p b' :
  legal_path b p b' -> reach b (List.length p) b'.
Proof.
  induction 1 as [b|b m p b' Hm Hp IH]; simpl.
  - apply reach_O.
  - eapply reach_cons; eauto.
Qed.

Lemma replay_legal b p b' : legal_path b p b' -> replay b p = b'.
Proof. induction 1; simpl; auto. Qed.

Lemma reach_wf b0 j b :
  well_formed b0 -> reach b0 j b -> well_formed b /\ shape b = shape b0.
Proof.
  intros Hwf. induction 1 as [|j b [k s] Hr [IHwf IHs] Hm]; [auto|].
  split.
  - now apply move_legal_wf.
  - simpl. now rewrite shape_move_legal.
Qed.

Lemma reach_hash_inj b0 j1 b1 j2 b2 :
  well_formed b0 -> reach b0 j1 b1 -> reach b0 j2 b2 ->
  get_state_hash b1 = get_state_hash b2 -> b1 = b2.
Proof.
  intros Hwf H1 H2 Hh.
  destruct (reach_wf _ _ _ Hwf H1) as [(_ & Hnd & _) Hs1].
  destruct (reach_wf _ _ _ Hwf H2) as [_ Hs2].
  apply hash_inj; congruence.
Qed.

(** ** Proof rules for the two loops of [solve_board] *)

Definition e_board (e : Entry) : Board := fst (fst e).
Definition e_depth (e : Entry) : nat := snd (fst e).
Definition e_path (e : Entry) : list Move := snd e.

Definition solvable (r : Result) : bool := fst (fst r).
Definition min_moves (r : Result) : nat := snd (fst r).
Definition solution (r : Result) : list Move := snd r.

(** The inner loop: [J] is an invariant over the moves still to try, the
    queue and the visited set; [Post] holds of a result returned from
    inside the loop. *)
Lemma expand_rule
    (J : list Move -> list Entry -> list StateHash -> Prop)
    (Post : Result -> Prop) cur d path :
  (forall k s rest q V,
      J ((k, s) :: rest) q V ->
      let next := move cur k s in
      (In (get_state_hash next) V -> J rest q V)
      /\ (~ In (get_state_hash next) V -> is_solved next = true ->
          Post (true, S d, path ++ [(k, s)])%list)
      /\ (~ In (get_state_hash next) V -> is_solved next = false ->
          J rest (q ++ [(next, S d, path ++ [(k, s)])])%list
            (get_state_hash next :: V))) ->
  forall (K : list Entry -> list StateHash -> Prop),
  (forall q V, J [] q V -> K q V) ->
  forall pm q V, J pm q V ->
    match expand cur d path pm q V with
    | inl r => Post r
    | inr (q', V') => K q' V'
    end.
Proof.
  intros Hstep K Hend. induction pm as [|[k s] rest IH]; intros q V HJ; simpl.
  - auto.
  - destruct (Hstep _ _ _ _ _ HJ) as (Hseen & Hsolved & Hnew).
    unfold seen. destruct (in_dec hash_eq_dec _ V) as [Hin|Hnin].
    + apply IH. auto.
    + destruct (is_solved (move cur k s)) eqn:Es.
      * auto.
      * apply IH. auto.
Qed.

(** The outer loop. *)
Lemma bfs_rule (I : list Entry -> list StateHash -> Prop) (Post : Result -> Prop) :
  (forall V, I [] V -> Post (false, O, [])) ->
  (forall cur d path q V,
      I ((cur, d, path) :: q) V -> (MAX_DEPTH <= d)%nat -> I q V) ->
  (forall cur d path q V,
      I ((cur, d, path) :: q) V -> (d < MAX_DEPTH)%nat ->
      match expand cur d path (get_possible_moves cur) q V with
      | inl r => Post r
      | inr (q', V') => I q' V'
      end) ->
  forall fuel q V r, I q V -> bfs fuel q V = Some r -> Post r.
Proof.
  intros Hend Hskip Hexp.
  induction fuel as [|fuel IH]; intros [|[[cur d] path] q] V r HI; cbn [bfs].
  - intros [= <-]. eauto.
  - discriminate.
  - intros [= <-]. eauto.
  - destruct (Nat.leb_spec MAX_DEPTH d) as [Hd|Hd].
    + apply IH. eauto.
    + specialize (Hexp _ _ _ _ _ HI Hd).
      destruct (expand cur d path (get_possible_moves cur) q V) as [r'|[q' V']].
      * now intros [= <-].
      * apply IH. assumption.
Qed.

Lemma bfs_fuel_mono fuel fuel' q V r :
  bfs fuel q V = Some r -> (fuel <= fuel')%nat -> bfs fuel' q V = Some r.
Proof.
  revert fuel' q V.
  induction fuel as [|fuel IH]; intros fuel' [|[[cur d] path] q] V; cbn [bfs];
    try discriminate.
  - intros H _. now destruct fuel'.
  - intros H _. now destruct fuel'.
  - intros H Hle. destruct fuel' as [|fuel']; [lia|]. cbn [bfs].
    destruct (MAX_DEPTH <=? d)%nat.
    + apply IH; [assumption|lia].
    + destruct (expand cur d path (get_possible_moves cur) q V) as [r'|[q' V']];
        [assumption|]. apply IH; [assumption|lia].
Qed.

Lemma solve_board_deterministic b r1 r2 :
  solve_board_returns b r1 -> solve_board_returns b r2 -> r1 = r2.
Proof.
  intros [f1 H1] [f2 H2]. unfold solve_board_fuel in *.
  destruct (is_solved b); [congruence|].
  apply (bfs_fuel_mono _ (Nat.max f1 f2)) in H1; [|lia].
  apply (bfs_fuel_mono _ (Nat.max f1 f2)) in H2; [|lia].
  congruence.
Qed.

(** ** What a positive answer of the solver carries *)

Section Soundness.
Variable b0 : Board.

Definition entry_sound (e : Entry) : Prop :=
  legal_path b0 (e_path e) (e_board e)
  /\ List.length (e_path e) = e_depth e.

Definition result_sound (r : Result) : Prop :=
  solvable r = true ->
  exists b', legal_path b0 (solution r) b'
             /\ is_solved b' = true
             /\ List.length (solution r) = min_moves r.

Lemma bfs_sound fuel q V r :
  Forall entry_sound q -> bfs fuel q V = Some r -> result_sound r.
Proof.
  revert fuel q V r.
  apply (bfs_rule (fun q _ => Forall entry_sound q) result_sound).
  - intros _ _ [=].
  - intros cur d path q' V' H _. now inversion H.
  - intros cur d path q' V' H _.
    inversion H as [|? ? [Hlegal Hlen] Hq]; subst.
    unfold e_path, e_board, e_depth in Hlegal, Hlen. simpl in Hlegal, Hlen.
    apply (expand_rule
             (fun pm q _ => (forall m, In m pm -> In m (get_possible_moves cur))
                            /\ Forall entry_sound q)
             result_sound); [|now intros ? ? []|auto].
    intros k s rest q V [Hpm Hq'] next.
    assert (In (k, s) (get_possible_moves cur)) as Hm by (apply Hpm; now left).
    assert (legal_path b0 (path ++ [(k, s)]) next) as Hnext
        by (apply (legal_path_snoc _ _ _ (k, s)); assumption).
    assert (List.length (path ++ [(k, s)]) = S d) as Hlen'.
    { rewrite length_app. simpl. lia. }
    split; [|split].
    + intros _. split; [|assumption]. intros m Hin. apply Hpm. now right.
    + intros _ Hs _. exists next. auto.
    + intros _ _. split.
      * intros m Hin. apply Hpm. now right.
      * apply Forall_app. split; [assumption|].
        constructor; [|constructor]. split; assumption.
Qed.

Lemma solve_board_sound r :
  solve_board_returns b0 r -> result_sound r.
Proof.
  intros [fuel H]. unfold solve_board_fuel in H.
  destruct (is_solved b0) eqn:Es.
  - injection H as <-. intros _. exists b0. simpl.
    split; [apply legal_nil|auto].
  - apply (bfs_sound _ _ _ _) in H; [assumption|].
    constructor; [|constructor]. split; [apply legal_nil|reflexivity].
Qed.

(** The solver answers [(False, 0, [])] or a positive result. *)
Lemma solve_board_negative r :
  solve_board_returns b0 r -> solvable r = false -> r = (false, O, []).
Proof.
  intros [fuel H]. unfold solve_board_fuel in H.
  destruct (is_solved b0); [now injection H as <-|].
  revert H.
  apply (bfs_rule (fun _ _ => True)
           (fun r => solvable r = false -> r = (false, O, []))); auto.
  intros cur d path q V _ _.
  apply (expand_rule (fun _ _ _ => True)
           (fun r => solvable r = false -> r = (false, O, []))); auto.
  intros k s rest q' V' _ next. repeat split; auto. discriminate.
Qed.
End Soundness.

(** ** The first positive answer is at the least depth *)

Lemma StronglySorted_snoc (l : list nat) x :
  StronglySorted le l -> Forall (fun y => (y <= x)%nat) l ->
  StronglySorted le (l ++ [x]).
Proof.
  induction 1 as [|a l Hs IH Ha]; simpl; intros Hx.
  - repeat constructor.
  - inversion Hx; subst. constructor; [auto|].
    apply Forall_app. split; [assumption|]. now constructor.
Qed.

Section Minimality.
Variable b0 : Board.
Hypothesis Hwf : well_formed b0.

(** No board of the puzzle whose hash is in the visited set is solved. *)
Definition unsolved_seen (V : list StateHash) : Prop :=
  forall j b, reach b0 j b -> In (get_state_hash b) V -> is_solved b = false.

(** Every move from a visited board leads to a visited board, unless the
    board still waits in the queue, at a depth no larger than its
    distance, or the move is [pending]. *)
Definition closed (pending : Board -> nat -> Move -> Prop)
    (q : list Entry) (V : list StateHash) : Prop :=
  forall j b m,
    reach b0 j b -> In (get_state_hash b) V -> In m (get_possible_moves b) ->
    In (get_state_hash (move b (fst m) (snd m))) V
    \/ (exists e, In e q /\ e_board e = b /\ (e_depth e <= j)%nat)
    \/ pending b j m.

(** The queue holds boards of the puzzle at their recorded depth, in
    depth order, on the levels [d] and [d + 1]. *)
Definition queue_ok (d : nat) (q : list Entry) : Prop :=
  (forall e, In e q ->
     reach b0 (e_depth e) (e_board e) /\ (d <= e_depth e <= S d)%nat)
  /\ StronglySorted le (map e_depth q).

(** Invariant of the inner loop while node [cur] of depth [d] is expanded
    and the moves [pm] are still to try. *)
Definition expanding (cur : Board) (d : nat) (pm : list Move)
    (q : list Entry) (V : list StateHash) : Prop :=
  reach b0 d cur
  /\ (forall m, In m pm -> In m (get_possible_moves cur))
  /\ In (get_state_hash b0) V
  /\ unsolved_seen V
  /\ closed (fun b j m => b = cur /\ (d <= j)%nat /\ In m pm) q V
  /\ queue_ok d q.

(** Invariant of the outer loop, until a node is skipped at the depth
    ceiling; from then on every queued node is at the ceiling. *)
Definition waiting (q : list Entry) (V : list StateHash) : Prop :=
  (In (get_state_hash b0) V
   /\ unsolved_seen V
   /\ closed (fun _ _ _ => False) q V
   /\ exists d, queue_ok d q)
  \/ Forall (fun e => (MAX_DEPTH <= e_depth e)%nat) q.

Definition minimal_result (r : Result) : Prop :=
  solvable r = true ->
  forall j b, reach b0 j b -> (j < min_moves r)%nat -> is_solved b = false.

Lemma unseen_deeper cur d pm q V j b :
  expanding cur d pm q V -> reach b0 j b ->
  In (get_state_hash b) V \/ (d < j)%nat.
Proof.
  intros (_ & _ & H0 & _ & Hcl & Hq & _).
  induction 1 as [|j b m Hr IH Hm]; [now left|].
  destruct IH as [Hin|Hlt]; [|right; lia].
  destruct (Hcl _ _ _ Hr Hin Hm) as [H|[(e & He & _ & Hd)|(_ & Hd & _)]].
  - now left.
  - right. destruct (Hq _ He) as [_ ?]. lia.
  - right. lia.
Qed.

Lemma expanding_step cur d path k s rest q V :
  expanding cur d ((k, s) :: rest) q V ->
  let next := move cur k s in
  (In (get_state_hash next) V -> expanding cur d rest q V)
  /\ (~ In (get_state_hash next) V -> is_solved next = true ->
      minimal_result (true, S d, path ++ [(k, s)])%list)
  /\ (~ In (get_state_hash next) V -> is_solved next = false ->
      expanding cur d rest (q ++ [(next, S d, path ++ [(k, s)])])%list
        (get_state_hash next :: V)).
Proof.
  intros HJ next.
  pose proof HJ as (Hcur & Hpm & H0 & Hun & Hcl & Hq & Hsorted).
  assert (In (k, s) (get_possible_moves cur)) as Hm by (apply Hpm; now left).
  assert (reach b0 (S d) next) as Hnext by (apply (reach_S _ _ _ (k, s)); assumption).
  assert (forall m, In m rest -> In m (get_possible_moves cur)) as Hpm'
      by (intros m Hin; apply Hpm; now right).
  split; [|split].
  - intros Hseen. repeat (split; [assumption|]). split; [|now split].
    intros j b m Hr Hin Hmb.
    destruct (Hcl _ _ _ Hr Hin Hmb) as [H|[H|(-> & Hd & [<-|Hrest])]]; auto.
  - intros Hnew _ _ j b Hr Hj. unfold min_moves in Hj. simpl in Hj.
    destruct (unseen_deeper _ _ _ _ _ _ _ HJ Hr) as [Hin|Hlt]; [|lia].
    exact (Hun _ _ Hr Hin).
  - intros Hnew Hunsolved.
    split; [assumption|]. split; [assumption|]. split; [now right|].
    split; [|split; [|split]].
    + intros j b Hr [Hh|Hin]; [|exact (Hun _ _ Hr Hin)].
      now rewrite <- (reach_hash_inj _ _ _ _ _ Hwf Hnext Hr Hh).
    + intros j b m Hr [Hh|Hin] Hmb.
      * right; left.
        pose proof (reach_hash_inj _ _ _ _ _ Hwf Hnext Hr Hh) as E.
        exists (next, S d, (path ++ [(k, s)])%list).
        split; [apply in_or_app; right; now left|]. split; [assumption|].
        unfold e_depth. simpl.
        destruct (unseen_deeper _ _ _ _ _ _ _ HJ Hr) as [Hin|Hlt]; [|lia].
        rewrite <- Hh in Hin. contradiction.
      * destruct (Hcl _ _ _ Hr Hin Hmb)
          as [H|[(e & He & Hb & Hd)|(-> & Hd & [<-|Hrest])]].
        -- left. now right.
        -- right; left. exists e. split; [apply in_or_app; now left|auto].
        -- left. now left.
        -- right; right. auto.
    + intros e He. apply in_app_or in He as [He|[<-|[]]]; [now apply Hq|].
      unfold e_depth, e_board. simpl. split; [assumption|lia].
    + rewrite map_app. simpl. apply StronglySorted_snoc; [assumption|].
      apply Forall_forall. intros x Hx. apply in_map_iff in Hx as (e & <- & He).
      now destruct (Hq _ He) as [_ [_ ?]].
Qed.

Lemma bfs_minimal fuel q V r :
  waiting q V -> bfs fuel q V = Some r -> minimal_result r.
Proof.
  revert fuel q V r. apply (bfs_rule waiting minimal_result).
  - intros V _ [=].
  - intros cur d path q V [(_ & _ & _ & d0 & Hq & Hs)|Hdead] Hd; right.
    + simpl in Hs. apply StronglySorted_inv in Hs as [_ Hs].
      apply Forall_forall. intros e He.
      rewrite Forall_forall in Hs.
      assert (d <= e_depth e)%nat by (apply Hs; now apply in_map). lia.
    + now inversion Hdead.
  - intros cur d path q V [(H0 & Hun & Hcl & d0 & Hq & Hs)|Hdead] Hd.
    2:{ inversion Hdead as [|? ? Hd' _]; subst. unfold e_depth in Hd'.
        simpl in Hd'. lia. }
    apply (expand_rule (expanding cur d) minimal_result).
    + apply expanding_step.
    + intros q' V' (_ & _ & H0' & Hun' & Hcl' & Hq'). left.
      repeat (split; [assumption|]). split; [|now exists d].
      intros j b m Hr Hin Hm.
      destruct (Hcl' _ _ _ Hr Hin Hm) as [H|[H|(_ & _ & [])]]; auto.
    + destruct (Hq (cur, d, path) (or_introl eq_refl)) as [Hcur Hd0].
      unfold e_depth, e_board in Hcur, Hd0. simpl in Hcur, Hd0.
      simpl in Hs. apply StronglySorted_inv in Hs as [Hs Hmin].
      split; [assumption|]. split; [auto|]. split; [assumption|].
      split; [assumption|]. split; [|split; [|assumption]].
      * intros j b m Hr Hin Hm.
        destruct (Hcl _ _ _ Hr Hin Hm) as [H|[(e & [<-|He] & Hb & Hj)|[]]].
        -- now left.
        -- unfold e_board, e_depth in Hb, Hj. simpl in Hb, Hj. subst b.
           right; right. auto.
        -- right; left. eauto.
      * intros e He. destruct (Hq e (or_intror He)) as [Hre Hde].
        split; [assumption|].
        rewrite Forall_forall in Hmin.
        assert (d <= e_depth e)%nat by (apply Hmin; now apply in_map). lia.
Qed.

Lemma solve_board_least r path b' :
  solve_board_returns b0 r -> solvable r = true ->
  legal_path b0 path b' -> (List.length path < min_moves r)%nat ->
  is_solved b' = false.
Proof.
  intros [fuel H] Hs Hp Hlen. unfold solve_board_fuel in H.
  destruct (is_solved b0) eqn:Es.
  { injection H as <-. unfold min_moves in Hlen. simpl in Hlen. lia. }
  apply bfs_minimal in H.
  - exact (H Hs _ _ (legal_path_reach _ _ _ Hp) Hlen).
  - left. split; [now left|].
    assert (forall j b, reach b0 j b ->
              In (get_state_hash b) [get_state_hash b0] -> b = b0) as Hroot.
    { intros j b Hr [Hh|[]]. symmetry.
      exact (reach_hash_inj _ _ _ _ _ Hwf (reach_O b0) Hr Hh). }
    split; [|split].
    + intros j b Hr Hin. now rewrite (Hroot _ _ Hr Hin).
    + intros j b m Hr Hin Hm. right; left.
      exists (b0, O, []). split; [now left|].
      split; [symmetry; eauto|unfold e_depth; simpl; lia].
    + exists O. split.
      * intros e [<-|[]]. unfold e_depth, e_board. simpl.
        split; [apply reach_O|lia].
      * simpl. repeat constructor.
Qed.
End Minimality.

(** ** [solve_board] returns *)

Lemma length_range lo hi : List.length (range lo hi) = Z.to_nat (hi - lo).
Proof. unfold range. now rewrite length_map, length_seq. Qed.

Lemma length_scan blocked l : (List.length (scan blocked l) <= List.length l)%nat.
Proof.
  induction l as [|s l IH]; simpl; [lia|].
  destruct (blocked s); simpl; lia.
Qed.

Lemma length_vehicle_moves b occ e :
  (List.length (vehicle_moves b occ e) <= 2 * Z.to_nat (size b - 1))%nat.
Proof.
  destruct e as [k v]. unfold vehicle_moves.
  rewrite length_app, !length_map.
  pose proof (length_scan (forward_blocked b occ v) (range 1 (size b))) as Hf.
  pose proof (length_scan (backward_blocked b occ v) (range 1 (size b))) as Hb.
  rewrite length_range in Hf, Hb. lia.
Qed.

Lemma length_get_possible_moves b :
  (List.length (get_possible_moves b)
   <= 2 * Z.to_nat (size b - 1) * List.length (vehicles b))%nat.
Proof.
  unfold get_possible_moves. generalize (get_occupied_cells b) as occ. intros occ.
  induction (vehicles b) as [|e d IH]; cbn [flat_map List.length]; [lia|].
  rewrite length_app, Nat.mul_succ_r.
  pose proof (length_vehicle_moves b occ e). lia.
Qed.

Lemma length_dict_set {V : Type} k (v : V) d :
  (List.length (dict_set k v d) <= S (List.length d))%nat.
Proof.
  induction d as [|[k' v'] d IH]; simpl; [lia|].
  destruct (String.eqb k' k); simpl; lia.
Qed.

Lemma length_add_vehicle b v :
  (List.length (vehicles (snd (add_vehicle b v))) <= S (List.length (vehicles b)))%nat.
Proof.
  destruct (add_vehicle_cases b v) as [[_ ->]|[_ ->]]; simpl; [lia|].
  apply length_dict_set.
Qed.

Lemma length_move b k s :
  (List.length (vehicles (move b k s)) <= List.length (vehicles b))%nat.
Proof.
  unfold move.
  assert (forall l acc,
            (List.length (vehicles (fold_left
               (fun nb e => snd (add_vehicle nb (move_entry k s e))) l acc))
             <= List.length (vehicles acc) + List.length l)%nat) as H.
  { induction l as [|e l IH]; intros acc; simpl; [lia|].
    specialize (IH (snd (add_vehicle acc (move_entry k s e)))).
    pose proof (length_add_vehicle acc (move_entry k s e)). lia. }
  apply (H (vehicles b) (new_board (size b))).
Qed.

(** What [expand] appends to the queue when it does not return: at most one
    entry per tried move, each one level deeper, holding a board made by
    [move] from the expanded one. *)
Lemma expand_children cur d path pm q V q' V' :
  expand cur d path pm q V = inr (q', V') ->
  exists ch, q' = (q ++ ch)%list
    /\ (List.length ch <= List.length pm)%nat
    /\ Forall (fun e => e_depth e = S d
                        /\ exists k s, e_board e = move cur k s) ch.
Proof.
  revert q V. induction pm as [|[k s] rest IH]; intros q V; simpl.
  - intros [= <- <-]. exists []. rewrite app_nil_r. repeat split; auto.
  - destruct (seen _ V).
    + intros H. destruct (IH _ _ H) as (ch & -> & Hlen & Hch).
      exists ch. repeat split; auto.
    + destruct (is_solved (move cur k s)); [discriminate|].
      intros H. destruct (IH _ _ H) as (ch & -> & Hlen & Hch).
      exists ((move cur k s, S d, (path ++ [(k, s)])%list) :: ch).
      rewrite <- app_assoc. repeat split; simpl; [lia|].
      constructor; [|assumption]. split; [reflexivity|]. now exists k, s.
Qed.

Lemma list_sum_cons a l : list_sum (a :: l) = (a + list_sum l)%nat.
Proof. reflexivity. Qed.

Section Termination.
(** A bound on the board size and on the number of vehicles of every
    board met, hence on the number of moves of each. *)
Variables (n : Z) (nv : nat).

Definition branching : nat := (2 * Z.to_nat (n - 1) * nv)%nat.

(** The number of nodes of a full tree with [levels] levels below its
    root and [branching] children per node. *)
Fixpoint tree_size (levels : nat) : nat :=
  match levels with
  | O => 1
  | S levels' => S (branching * tree_size levels')
  end.

Definition weight (e : Entry) : nat := tree_size (MAX_DEPTH - e_depth e).

Definition bounded (e : Entry) : Prop :=
  size (e_board e) = n /\ (List.length (vehicles (e_board e)) <= nv)%nat.

Lemma tree_size_pos levels : (1 <= tree_size levels)%nat.
Proof. destruct levels; simpl; lia. Qed.

Lemma weight_children d ch :
  Forall (fun e => e_depth e = S d) ch ->
  list_sum (map weight ch) = (List.length ch * tree_size (MAX_DEPTH - S d))%nat.
Proof.
  induction 1 as [|e ch He _ IH]; [reflexivity|].
  rewrite map_cons, list_sum_cons, IH. cbn [List.length].
  unfold weight. rewrite He. lia.
Qed.

Lemma bfs_terminates fuel q V :
  Forall bounded q -> (list_sum (map weight q) <= fuel)%nat ->
  exists r, bfs fuel q V = Some r.
Proof.
  revert q V. induction fuel as [|fuel IH];
    intros [|[[cur d] path] q] V Hb Hw; cbn [bfs]; eauto.
  - rewrite map_cons, list_sum_cons in Hw.
    pose proof (tree_size_pos (MAX_DEPTH - e_depth (cur, d, path))).
    unfold weight in Hw at 1. lia.
  - rewrite map_cons, list_sum_cons in Hw. inversion Hb as [|? ? [Hsize Hnv] Hq]; subst.
    unfold e_board in Hsize, Hnv. simpl in Hsize, Hnv.
    unfold weight in Hw at 1. unfold e_depth in Hw at 1. cbn [fst snd] in Hw.
    destruct (Nat.leb_spec MAX_DEPTH d) as [Hd|Hd].
    + apply IH; [assumption|].
      pose proof (tree_size_pos (MAX_DEPTH - d)). lia.
    + destruct (expand cur d path (get_possible_moves cur) q V)
        as [r|[q' V']] eqn:E; [eauto|].
      apply expand_children in E as (ch & -> & Hlen & Hch).
      apply IH.
      * apply Forall_app. split; [assumption|].
        eapply Forall_impl; [|exact Hch].
        intros e (_ & k & s & E). unfold bounded. rewrite E. split.
        -- now rewrite move_size.
        -- pose proof (length_move cur k s). lia.
      * rewrite map_app, list_sum_app.
        rewrite (weight_children d ch).
        2:{ eapply Forall_impl; [|exact Hch]. now intros e []. }
        pose proof (length_get_possible_moves cur) as Hm.
        rewrite Hsize in Hm.
        assert (List.length ch <= branching)%nat as Hch'.
        { unfold branching.
          assert (2 * Z.to_nat (n - 1) * List.length (vehicles cur)
                  <= 2 * Z.to_nat (n - 1) * nv)%nat
            by (apply Nat.mul_le_mono_l; assumption).
          lia. }
        replace (MAX_DEPTH - d)%nat with (S (MAX_DEPTH - S d)) in Hw by lia.
        cbn [tree_size] in Hw.
        pose proof (Nat.mul_le_mono_r _ _ (tree_size (MAX_DEPTH - S d)) Hch').
        lia.
Qed.
End Termination.

Lemma solve_board_total b : exists r, solve_board_returns b r.
Proof.
  unfold solve_board_returns, solve_board_fuel.
  destruct (is_solved b); [exists (true, O, []), O; reflexivity|].
  set (fuel := weight (size b) (List.length (vehicles b)) (b, O, [])).
  destruct (bfs_terminates (size b) (List.length (vehicles b)) fuel
              [(b, O, [])] [get_state_hash b]) as [r Hr].
  - constructor; [|constructor]. split; [reflexivity|]. unfold e_board. simpl. lia.
  - rewrite map_cons, list_sum_cons.
    change (list_sum (map _ [])) with O. rewrite Nat.add_0_r. apply le_n.
  - eauto.
Qed.

(** ** Boards built through [add_vehicle] are well formed *)

Lemma keys_dict_set {V : Type} k (v : V) d x :
  In x (keys (dict_set k v d)) -> x = k \/ In x (keys d).
Proof.
  induction d as [|[k' v'] d IH]; simpl.
  - intros [<-|[]]; auto.
  - destruct (String.eqb_spec k' k) as [->|]; simpl; intuition.
Qed.

Lemma NoDup_dict_set {V : Type} k (v : V) d :
  NoDup (keys d) -> NoDup (keys (dict_set k v d)).
Proof.
  induction d as [|[k' v'] d IH]; simpl; intros Hnd.
  - repeat constructor. intros [].
  - inversion Hnd as [|? ? Hk Hnd']; subst.
    destruct (String.eqb_spec k' k) as [->|Hne]; simpl.
    + now constructor.
    + constructor; [|auto]. intros Hin.
      apply keys_dict_set in Hin as [->|Hin]; congruence.
Qed.

Lemma In_dict_set {V : Type} k (v : V) d e :
  In e (dict_set k v d) -> e = (k, v) \/ In e d.
Proof.
  induction d as [|[k' v'] d IH]; simpl.
  - intros [<-|[]]; auto.
  - destruct (String.eqb k' k); simpl; intuition.
Qed.

Lemma new_board_wf n : well_formed (new_board n).
Proof. repeat split; simpl; constructor. Qed.

Lemma add_vehicle_wf b v : well_formed b -> well_formed (snd (add_vehicle b v)).
Proof.
  intros Hwf. pose proof Hwf as (Hk & Hnd & Hc).
  split; [|split; [|now apply add_vehicle_cells_ok]];
    destruct (add_vehicle_cases b v) as [[_ ->]|[_ ->]]; simpl; auto.
  - apply Forall_forall. intros e He.
    apply In_dict_set in He as [->|He]; [reflexivity|].
    rewrite Forall_forall in Hk. auto.
  - now apply NoDup_dict_set.
Qed.

(** ** Example boards *)

(** The target alone with a truck across its lane and a car below the
    truck: two slides clear the lane. *)
Definition scenarioC : Board :=
  mkBoard 6 [("target"%string, Vehicle.mk "target" "horizontal" 2 2 0);
             ("truck_1"%string, Vehicle.mk "truck_1" "vertical" 3 0 4);
             ("car_2"%string, Vehicle.mk "car_2" "horizontal" 2 5 3)].

(** A board without target. *)
Definition no_target_board : Board :=
  mkBoard 6 [("car_1"%string, Vehicle.mk "car_1" "vertical" 2 0 0)].

(** A vertical vehicle under the reserved id, in the last column. *)
Definition vertical_target_board : Board :=
  mkBoard 6 [("target"%string, Vehicle.mk "target" "vertical" 2 0 4)].

Ltac concrete_board :=
  repeat split; simpl;
  repeat match goal with
         | |- Forall _ _ => constructor
         | |- NoDup _ => constructor
         | |- _ /\ _ => split
         | |- True => exact I
         | |- ~ In _ _ => simpl; intuition discriminate
         | |- ~ overlaps _ _ =>
             let c := fresh "c" in
             let H1 := fresh "H" in
             let H2 := fresh "H" in
             intros (c & H1 & H2); simpl in H1, H2;
             intuition (subst; discriminate)
         | |- within _ _ =>
             let c := fresh "c" in
             let Hc := fresh "H" in
             intros c Hc; simpl in Hc; unfold in_bounds;
             intuition (subst; simpl; lia)
         | |- _ = _ => reflexivity
         | |- _ < _ => reflexivity
         end.

Lemma scenarioA_valid : valid_board scenarioA.
Proof. concrete_board. Qed.

Lemma scenarioC_valid : valid_board scenarioC.
Proof. concrete_board. Qed.

Lemma no_target_board_valid : valid_board no_target_board.
Proof. concrete_board. Qed.

Ltac in_list := vm_compute; repeat (try (left; reflexivity); right).

Lemma scenarioA_solution :
  solve_board_returns scenarioA (true, 1%nat, [("target"%string, 4)]).
Proof. exists 10%nat. vm_compute. reflexivity. Qed.

Lemma scenarioC_solution :
  solve_board_returns scenarioC
    (true, 3%nat,
     [("car_2"%string, -1); ("truck_1"%string, 3); ("target"%string, 4)]).
Proof. exists 200%nat. vm_compute. reflexivity. Qed.

Lemma lookup_slid k s d k' :
  lookup k' (slid k s d)
  = option_map (fun v => if String.eqb k' k then slide v s else v) (lookup k' d).
Proof.
  induction d as [|[k0 v0] d IH]; simpl; [reflexivity|].
  destruct (String.eqb_spec k0 k') as [->|]; [reflexivity|assumption].
Qed.

(** * The claims *)

(** No path of fewer than [k] legal moves from [b] ends on a solved board. *)
Definition no_shorter_solution (b : Board) (k : nat) : Prop :=
  forall p b', legal_path b p b' -> (List.length p < k)%nat -> is_solved b' = false.

(** C1. On a valid board, when [solve_board] answers [(True, k, path)], [k]
    is the distance to the nearest solved state: no sequence of fewer than
    [k] moves, each one of [get_possible_moves] of the board it is applied
    to, leads from the input board to a solved board. *)
Theorem solve_board_minimum b k path :
  valid_board b -> solve_board_returns b (true, k, path) ->
  no_shorter_solution b k.
Proof.
  intros [Hwf _] Hret p b' Hp Hlen.
  exact (solve_board_least b Hwf _ p b' Hret eq_refl Hp Hlen).
Qed.

Lemma solve_board_minimum_witness :
  valid_board scenarioC
  /\ solve_board_returns scenarioC
       (true, 3%nat,
        [("car_2"%string, -1); ("truck_1"%string, 3); ("target"%string, 4)])
  /\ is_solved (move (move scenarioC "car_2" (-1)) "truck_1" 3) = false.
Proof.
  split; [exact scenarioC_valid|]. split; [exact scenarioC_solution|].
  apply (solve_board_minimum scenarioC 3 _ scenarioC_valid scenarioC_solution
           [("car_2"%string, -1); ("truck_1"%string, 3)]).
  - apply legal_cons; [in_list|]. apply legal_cons; [in_list|]. apply legal_nil.
  - simpl. lia.
Defined.

(** C2. When [solve_board] answers [(True, k, path)], [path] has exactly
    [k] moves and replaying them in order with [move] from the input board
    ends on a solved board.  This holds of every board. *)
Theorem solve_board_path_replays b k path :
  solve_board_returns b (true, k, path) ->
  List.length path = k /\ is_solved (replay b path) = true.
Proof.
  intros Hret.
  destruct (solve_board_sound b _ Hret eq_refl) as (b' & Hp & Hs & Hlen).
  unfold solution, min_moves in *. simpl in *.
  rewrite (replay_legal _ _ _ Hp). auto.
Qed.

Lemma solve_board_path_replays_witness :
  solve_board_returns scenarioC
    (true, 3%nat,
     [("car_2"%string, -1); ("truck_1"%string, 3); ("target"%string, 4)])
  /\ List.length
       [("car_2"%string, -1); ("truck_1"%string, 3); ("target"%string, 4)] = 3%nat
  /\ is_solved
       (replay scenarioC
          [("car_2"%string, -1); ("truck_1"%string, 3); ("target"%string, 4)])
     = true.
Proof.
  split; [exact scenarioC_solution|].
  exact (solve_board_path_replays scenarioC 3 _ scenarioC_solution).
Defined.

(** C3. On a valid board, [get_possible_moves] emits [(id, s)] exactly when
    [id] names a vehicle of the board and every step count from 1 to [|s|]
    in the direction of [s] is a slide that keeps all cells of the vehicle
    within bounds and off the cells of every different vehicle: in each
    direction, the step counts before the first blocked one, and nothing
    else. *)
Theorem get_possible_moves_exact b k s :
  valid_board b ->
  (In (k, s) (get_possible_moves b)
   <-> exists v, In (k, v) (vehicles b) /\ clear_lane b k v s).
Proof.
  intros [Hwf Hlen]. split; [now apply legal_clear_lane|].
  intros (v & Hin & Hlane). apply In_get_possible_moves.
  exists v. split; [assumption|].
  assert (0 < Vehicle.length v) as Hl.
  { rewrite Forall_forall in Hlen. apply Hlen.
    change v with (snd (k, v)). now apply in_map. }
  destruct Hlane as [[Hs Hall]|[Hs Hall]]; [left|right].
  - split.
    + destruct (free_forward b k v s Hwf Hin Hl Hs) as [_ H]; [apply Hall|]; lia.
    + intros t Ht. apply (free_forward b k v t); auto; try lia. apply Hall. lia.
  - split.
    + destruct (free_backward b k v (- s) Hwf Hin Hl) as [_ H]; try lia.
      rewrite Z.opp_involutive. apply Hall. lia.
    + intros t Ht. apply (free_backward b k v t); auto; try lia. apply Hall. lia.
Qed.

Lemma get_possible_moves_exact_witness :
  valid_board scenarioC
  /\ (In ("truck_1"%string, 2) (get_possible_moves scenarioC)
      <-> exists v, In ("truck_1"%string, v) (vehicles scenarioC)
                    /\ clear_lane scenarioC "truck_1" v 2).
Proof.
  split; [exact scenarioC_valid|].
  exact (get_possible_moves_exact scenarioC "truck_1" 2 scenarioC_valid).
Defined.

(** C4. If the occupied-cell sets of a board are pairwise disjoint and
    within [[0, N) x [0, N)], then so are those of the board that [move]
    returns for a move of [get_possible_moves], on the same [N]. *)
Theorem move_legal_cells_ok b v_id steps :
  cells_ok b -> In (v_id, steps) (get_possible_moves b) ->
  cells_ok (move b v_id steps) /\ size (move b v_id steps) = size b.
Proof.
  intros _ _. split; [apply move_cells_ok|apply move_size].
Qed.

Lemma move_legal_cells_ok_witness :
  cells_ok scenarioC
  /\ In ("car_2"%string, -1) (get_possible_moves scenarioC)
  /\ cells_ok (move scenarioC "car_2" (-1))
  /\ size (move scenarioC "car_2" (-1)) = size scenarioC.
Proof.
  assert (cells_ok scenarioC) as Hc by apply scenarioC_valid.
  assert (In ("car_2"%string, -1) (get_possible_moves scenarioC)) as Hm by in_list.
  split; [exact Hc|]. split; [exact Hm|].
  exact (move_legal_cells_ok scenarioC "car_2" (-1) Hc Hm).
Defined.

(** [b'] is [b] with the vehicle [v_id] advanced by [steps] along its axis
    and every other vehicle as it was. *)
Definition frame_of (b : Board) (v_id : string) (steps : Z) (b' : Board) : Prop :=
  keys (vehicles b') = keys (vehicles b)
  /\ (forall k v, k <> v_id -> lookup k (vehicles b) = Some v ->
        lookup k (vehicles b') = Some v)
  /\ exists v v',
       lookup v_id (vehicles b) = Some v
       /\ lookup v_id (vehicles b') = Some v'
       /\ Vehicle.id v' = Vehicle.id v
       /\ Vehicle.orientation v' = Vehicle.orientation v
       /\ Vehicle.length v' = Vehicle.length v
       /\ if Vehicle.is_horizontal v
          then Vehicle.row v' = Vehicle.row v
               /\ Vehicle.col v' = Vehicle.col v + steps
          else Vehicle.row v' = Vehicle.row v + steps
               /\ Vehicle.col v' = Vehicle.col v.

(** C5. For a move [(v_id, steps)] of [get_possible_moves] of the current
    board (a board as [add_vehicle] builds them), [move] returns a board
    with the same vehicles, each one other than [v_id] with identical id,
    orientation, length, row and col, and [v_id] with the same id,
    orientation and length and its anchor advanced by [steps] along its own
    axis. *)
Theorem move_frame b v_id steps :
  well_formed b -> In (v_id, steps) (get_possible_moves b) ->
  frame_of b v_id steps (move b v_id steps).
Proof.
  intros Hwf Hm. rewrite (move_legal _ _ _ Hwf Hm). unfold frame_of. simpl.
  split; [apply keys_slid|]. split.
  - intros k v Hne Hk. rewrite lookup_slid, Hk. simpl.
    destruct (String.eqb_spec k v_id); [contradiction|reflexivity].
  - apply In_get_possible_moves in Hm as (v & Hin & _).
    destruct Hwf as (_ & Hnd & _).
    apply (In_lookup _ _ _ Hnd) in Hin.
    exists v, (slide v steps). split; [assumption|]. split.
    + now rewrite lookup_slid, Hin, String.eqb_refl.
    + rewrite slide_id, slide_orientation, slide_length.
      repeat (split; [reflexivity|]).
      unfold slide. destruct (Vehicle.is_horizontal v); simpl; auto.
Qed.

Lemma move_frame_witness :
  well_formed scenarioC
  /\ In ("truck_1"%string, 1) (get_possible_moves scenarioC)
  /\ frame_of scenarioC "truck_1" 1 (move scenarioC "truck_1" 1).
Proof.
  assert (well_formed scenarioC) as Hwf by apply scenarioC_valid.
  assert (In ("truck_1"%string, 1) (get_possible_moves scenarioC)) as Hm by in_list.
  split; [exact Hwf|]. split; [exact Hm|].
  exact (move_frame scenarioC "truck_1" 1 Hwf Hm).
Defined.

(** C6, as the code has it.  On the 6x6 board holding only the target
    (horizontal, length 2) at row 2, column 0, [solve_board] answers
    [(True, 1, [("target", 4)])]: the one slide that brings the target from
    column 0 to column 4 is a slide of 4 cells. *)
Theorem solve_board_scenarioA :
  solve_board_returns scenarioA (true, 1%nat, [("target"%string, 4)]).
Proof. exact scenarioA_solution. Qed.

(** The answer is not [(True, 1, [("target", 3)])]: sliding 3 cells leaves
    the target at column 3, with its edge at 5. *)
Lemma solve_board_scenarioA_not_3 :
  ~ solve_board_returns scenarioA (true, 1%nat, [("target"%string, 3)]).
Proof.
  intros H.
  pose proof (solve_board_deterministic _ _ _ H scenarioA_solution) as E.
  discriminate E.
Qed.

(** C7, as the code has it.  [move] has no failure path: for every board
    and every step value, legal or not, it returns a board of the same size
    whose occupied-cell sets are pairwise disjoint and within bounds, and
    every vehicle of that board is the copy [move] made of a vehicle of the
    input board, stored under its id.  Copies that [add_vehicle] refuses
    are left out without any signal. *)
Theorem move_total_subset b v_id steps :
  size (move b v_id steps) = size b
  /\ cells_ok (move b v_id steps)
  /\ forall k v', In (k, v') (vehicles (move b v_id steps)) ->
       k = Vehicle.id v'
       /\ exists e, In e (vehicles b) /\ v' = move_entry v_id steps e.
Proof.
  split; [apply move_size|]. split; [apply move_cells_ok|].
  unfold move.
  assert (forall l acc k v',
            In (k, v') (vehicles (fold_left
              (fun nb e => snd (add_vehicle nb (move_entry v_id steps e))) l acc)) ->
            In (k, v') (vehicles acc)
            \/ (k = Vehicle.id v'
                /\ exists e, In e l /\ v' = move_entry v_id steps e)) as H.
  { induction l as [|e l IH]; intros acc k v'; simpl; [auto|].
    intros Hin. apply IH in Hin as [Hin|(Hk & e' & He' & Hv)].
    - destruct (add_vehicle_cases acc (move_entry v_id steps e))
        as [[_ E]|[_ E]]; rewrite E in Hin; simpl in Hin; [auto|].
      apply In_dict_set in Hin as [[= -> ->]|Hin]; [|auto].
      right. eauto.
    - right. eauto. }
  intros k v' Hin. apply H in Hin as [[]|Hin]. exact Hin.
Qed.

(** A step value that [get_possible_moves] does not offer: [move] returns,
    silently, a board from which the target has vanished. *)
Lemma move_illegal_step_silent :
  valid_board scenarioA
  /\ ~ In ("target"%string, 5) (get_possible_moves scenarioA)
  /\ move scenarioA "target" 5 = new_board 6
  /\ move scenarioA "target" 5
     <> mkBoard 6 (slid "target" 5 (vehicles scenarioA)).
Proof.
  split; [exact scenarioA_valid|]. split; [|split].
  - vm_compute. intuition discriminate.
  - reflexivity.
  - discriminate.
Qed.

(** C8. [add_vehicle] returns [False] and leaves the board as it is when a
    cell of the new vehicle is a cell of a vehicle of the board or lies
    outside [[0, N) x [0, N)]; otherwise it returns [True] and the board is
    the old one with the vehicle stored under its id, every other key
    unchanged.  It is a total function: there is no raising path. *)
Theorem add_vehicle_spec b v :
  (placement_refused b v /\ add_vehicle b v = (false, b))
  \/ (~ placement_refused b v
      /\ exists b',
           add_vehicle b v = (true, b')
           /\ size b' = size b
           /\ vehicles b' = dict_set (Vehicle.id v) v (vehicles b)
           /\ lookup (Vehicle.id v) (vehicles b') = Some v
           /\ forall k, k <> Vehicle.id v ->
                lookup k (vehicles b') = lookup k (vehicles b)).
Proof.
  destruct (add_vehicle_cases b v) as [H|[Hok E]]; [now left|right].
  split; [assumption|]. eexists. split; [exact E|]. simpl.
  repeat split.
  - apply lookup_dict_set_eq.
  - intros k Hk. now apply lookup_dict_set_neq.
Qed.

(** C9. On a valid board whose mapping has no key ['target'],
    [solve_board] returns, and what it returns is [(False, 0, [])]. *)
Theorem solve_board_no_target b :
  valid_board b -> lookup "target" (vehicles b) = None ->
  solve_board_returns b (false, O, [])
  /\ forall r, solve_board_returns b r -> solvable r = false.
Proof.
  intros [Hwf _] Hnone.
  assert (forall r, solve_board_returns b r -> solvable r = false) as Hneg.
  { intros r Hret. destruct (solvable r) eqn:Es; [|reflexivity].
    destruct (solve_board_sound b r Hret Es) as (b' & Hp & Hs & _).
    apply legal_path_reach in Hp.
    destruct (reach_wf _ _ _ Hwf Hp) as [_ Hshape].
    apply shape_keys in Hshape.
    unfold is_solved in Hs.
    destruct (lookup "target" (vehicles b')) eqn:E; [|discriminate].
    assert (In "target"%string (keys (vehicles b'))) as Hin.
    { apply lookup_In in E. change "target"%string with (fst ("target"%string, t)).
      now apply in_map. }
    rewrite Hshape in Hin. apply lookup_None in Hnone. contradiction. }
  split; [|assumption].
  destruct (solve_board_total b) as [r Hret].
  now rewrite <- (solve_board_negative b r Hret (Hneg r Hret)).
Qed.

Lemma solve_board_no_target_witness :
  valid_board no_target_board
  /\ lookup "target" (vehicles no_target_board) = None
  /\ solve_board_returns no_target_board (false, O, []).
Proof.
  split; [exact no_target_board_valid|]. split; [reflexivity|].
  exact (proj1 (solve_board_no_target no_target_board
                  no_target_board_valid eq_refl)).
Defined.

(** C10. On a board with a vehicle under the key ['target'], [is_solved]
    is true exactly when that vehicle's [col + length] equals the board
    size, whatever its orientation and length. *)
Theorem is_solved_target b target :
  lookup "target" (vehicles b) = Some target ->
  (is_solved b = true
   <-> Vehicle.col target + Vehicle.length target = size b).
Proof.
  intros H. unfold is_solved. rewrite H. apply Z.eqb_eq.
Qed.

(** In particular a vertical vehicle named ['target'] in column 4 of a 6x6
    board counts as solved. *)
Lemma is_solved_target_witness :
  lookup "target" (vehicles vertical_target_board)
  = Some (Vehicle.mk "target" "vertical" 2 0 4)
  /\ (is_solved vertical_target_board = true <-> 4 + 2 = 6).
Proof.
  split; [reflexivity|].
  exact (is_solved_target vertical_target_board
           (Vehicle.mk "target" "vertical" 2 0 4) eq_refl).
Defined.

(** * Further properties of the board *)

(** ** Building boards *)

Lemma keys_dict_set_present {V : Type} k (v : V) d :
  In k (keys d) -> keys (dict_set k v d) = keys d.
Proof.
  induction d as [|[k' v'] d IH]; simpl; [intros []|].
  destruct (String.eqb_spec k' k) as [->|Hne]; simpl; [reflexivity|].
  intros [H|H]; [contradiction|]. now rewrite IH.
Qed.

Lemma occupies_empty v : Vehicle.length v <= 0 -> Vehicle.occupies v = [].
Proof.
  intros H. unfold Vehicle.occupies. now rewrite range_nil by lia.
Qed.

Lemma overlaps_self v : 0 < Vehicle.length v -> overlaps v v.
Proof.
  intros H. exists (cell_at v 0). split; apply cell_at_own; lia.
Qed.

Lemma NoDup_range lo hi : NoDup (range lo hi).
Proof.
  unfold range. apply Finite.Injective_map_NoDup; [|apply seq_NoDup].
  intros x y. lia.
Qed.

Lemma fold_move_entry k s l acc :
  fold_left (fun nb e => snd (add_vehicle nb (move_entry k s e))) l acc
  = fold_left (fun nb w => snd (add_vehicle nb w)) (map (move_entry k s) l) acc.
Proof.
  revert acc. induction l as [|e l IH]; intros acc; simpl; [reflexivity|apply IH].
Qed.

Lemma keyed_entries (d : dict Vehicle.t) :
  Forall (fun e => fst e = Vehicle.id (snd e)) d ->
  map (fun w => (Vehicle.id w, w)) (values d) = d.
Proof.
  intros Hk. unfold values. rewrite map_map. rewrite <- (map_id d) at 2.
  apply map_ext_in. intros [k w] He. rewrite Forall_forall in Hk.
  specialize (Hk _ He). simpl in *. now subst.
Qed.

Lemma keyed_ids (d : dict Vehicle.t) :
  Forall (fun e => fst e = Vehicle.id (snd e)) d ->
  map Vehicle.id (values d) = keys d.
Proof.
  intros Hk. rewrite <- (keyed_entries d Hk) at 2.
  unfold keys. rewrite map_map. reflexivity.
Qed.

(** A well-formed board re-inserted vehicle by vehicle is itself. *)
Lemma rebuild_wf b :
  well_formed b ->
  fold_left (fun nb w => snd (add_vehicle nb w)) (values (vehicles b))
    (new_board (size b)) = b.
Proof.
  intros (Hk & Hnd & Hp & Hw).
  pose proof (rebuild_exact (size b) (values (vehicles b)) []) as H.
  simpl in H. unfold new_board. rewrite H; try assumption.
  - rewrite keyed_entries by assumption. now destruct b.
  - now rewrite keyed_ids.
Qed.

Lemma slide_slide v s t : slide (slide v s) t = slide v (s + t).
Proof.
  unfold slide, Vehicle.is_horizontal.
  destruct (String.eqb (Vehicle.orientation v) "horizontal") eqn:E;
    simpl; rewrite E; unfold Vehicle.add_col, Vehicle.add_row; simpl;
    f_equal; lia.
Qed.

Lemma slide_0 v : slide v 0 = v.
Proof.
  unfold slide. destruct v as [i o l r c]. unfold Vehicle.is_horizontal. simpl.
  destruct (String.eqb o "horizontal"); unfold Vehicle.add_col, Vehicle.add_row;
    simpl; f_equal; lia.
Qed.

Lemma slid_slid k s t (d : dict Vehicle.t) :
  slid k t (slid k s d) = slid k (s + t) d.
Proof.
  unfold slid. rewrite map_map. apply map_ext. intros [k' v]. simpl.
  destruct (String.eqb k' k); [now rewrite slide_slide|reflexivity].
Qed.

Lemma slid_0 k (d : dict Vehicle.t) : slid k 0 d = d.
Proof.
  unfold slid. rewrite <- (map_id d) at 2. apply map_ext. intros [k' v]. simpl.
  destruct (String.eqb k' k); [now rewrite slide_0|reflexivity].
Qed.

Lemma In_slid_other k s d k' w :
  k' <> k -> (In (k', w) (slid k s d) <-> In (k', w) d).
Proof.
  intros Hne. unfold slid. rewrite in_map_iff. split.
  - intros ([k0 v0] & [= <- <-] & Hin). simpl.
    destruct (String.eqb_spec k0 k); [contradiction|assumption].
  - intros Hin. exists (k', w). simpl.
    destruct (String.eqb_spec k' k); [contradiction|auto].
Qed.

Lemma In_slid_same k s d v :
  In (k, v) d -> In (k, slide v s) (slid k s d).
Proof.
  intros Hin. unfold slid. apply in_map_iff. exists (k, v). simpl.
  now rewrite String.eqb_refl.
Qed.

Lemma wf_free_self b k v :
  well_formed b -> In (k, v) (vehicles b) -> free_for b k v.
Proof.
  intros Hwf Hin. split; [eapply wf_within; eauto|].
  intros k' w Hw Hne. apply (wf_disjoint b k v k' w); auto.
Qed.

(** On a valid board a clear lane is a move of [get_possible_moves]. *)
Lemma clear_lane_legal b k v s :
  valid_board b -> In (k, v) (vehicles b) -> clear_lane b k v s ->
  In (k, s) (get_possible_moves b).
Proof.
  intros [Hwf Hlen] Hin Hlane. apply In_get_possible_moves.
  exists v. split; [assumption|].
  assert (0 < Vehicle.length v) as Hl.
  { rewrite Forall_forall in Hlen. apply Hlen.
    change v with (snd (k, v)). now apply in_map. }
  destruct Hlane as [[Hs Hall]|[Hs Hall]]; [left|right].
  - split.
    + destruct (free_forward b k v s Hwf Hin Hl Hs) as [_ H]; [apply Hall|]; lia.
    + intros t Ht. apply (free_forward b k v t); auto; try lia. apply Hall. lia.
  - split.
    + destruct (free_backward b k v (- s) Hwf Hin Hl) as [_ H]; try lia.
      rewrite Z.opp_involutive. apply Hall. lia.
    + intros t Ht. apply (free_backward b k v t); auto; try lia. apply Hall. lia.
Qed.

Lemma move_legal_valid b k s :
  valid_board b -> In (k, s) (get_possible_moves b) -> valid_board (move b k s).
Proof.
  intros [Hwf Hlen] Hm. split; [now apply move_legal_wf|].
  rewrite (move_legal _ _ _ Hwf Hm). simpl.
  apply Forall_forall. intros w Hw.
  rewrite Forall_forall in Hlen.
  apply In_values_slid in Hw as [(k' & Hw & _)|(v & Hw & ->)].
  - apply Hlen. change w with (snd (k', w)). now apply in_map.
  - rewrite slide_length. apply Hlen. change v with (snd (k, v)). now apply in_map.
Qed.

(** Boards built from [Board(n)] by [add_vehicle] calls, whatever each call
    answered, are well formed: every vehicle sits under its own id, no id
    twice, cells pairwise disjoint and in bounds. *)
Theorem built_boards_well_formed n (vs : list Vehicle.t) :
  well_formed (fold_left (fun b v => snd (add_vehicle b v)) vs (new_board n)).
Proof.
  assert (forall b, well_formed b ->
            well_formed (fold_left (fun b v => snd (add_vehicle b v)) vs b)) as H.
  { induction vs as [|v vs IH]; intros b Hwf; simpl; [assumption|].
    apply IH. now apply add_vehicle_wf. }
  apply H, new_board_wf.
Qed.

(** A vehicle of length 0 or less occupies no cell, so [add_vehicle] always
    accepts it, on any board and at any position. *)
Theorem add_vehicle_empty_vehicle b v :
  Vehicle.length v <= 0 ->
  add_vehicle b v
  = (true, mkBoard (size b) (dict_set (Vehicle.id v) v (vehicles b))).
Proof.
  intros Hlen. destruct (add_vehicle_cases b v) as [[Href _]|[_ E]]; [|assumption].
  exfalso. unfold placement_refused, overlaps in Href.
  rewrite (occupies_empty v Hlen) in Href.
  destruct Href as [(w & _ & c & [] & _)|(c & [] & _)].
Qed.

Lemma add_vehicle_empty_vehicle_witness :
  add_vehicle scenarioA (Vehicle.mk "ghost" "horizontal" 0 2 0)
  = (true,
     mkBoard 6 [("target"%string, Vehicle.mk "target" "horizontal" 2 2 0);
                ("ghost"%string, Vehicle.mk "ghost" "horizontal" 0 2 0)]).
Proof.
  exact (add_vehicle_empty_vehicle scenarioA
           (Vehicle.mk "ghost" "horizontal" 0 2 0) ltac:(simpl; lia)).
Defined.

(** A vehicle of positive length that is on the board cannot be put again
    through [add_vehicle], neither in place nor shifted along its axis by
    fewer cells than its length: it collides with its own earlier copy, and
    the board stays as it is. *)
Theorem add_vehicle_collides_with_itself b k w s :
  In (k, w) (vehicles b) -> - Vehicle.length w < s < Vehicle.length w ->
  add_vehicle b (slide w s) = (false, b).
Proof.
  intros Hin Hs. destruct (add_vehicle_cases b (slide w s)) as [[_ E]|[Hok _]];
    [assumption|].
  exfalso. apply Hok. left. exists w. split.
  - change w with (snd (k, w)). now apply in_map.
  - exists (cell_at w (Z.max 0 s)). split.
    + apply In_occupies_slide. exists (Z.max 0 s - s). split; [lia|f_equal; lia].
    + apply cell_at_own. lia.
Qed.

Lemma add_vehicle_collides_with_itself_witness :
  In ("target"%string, Vehicle.mk "target" "horizontal" 2 2 0) (vehicles scenarioA)
  /\ add_vehicle scenarioA (slide (Vehicle.mk "target" "horizontal" 2 2 0) 1)
     = (false, scenarioA).
Proof.
  assert (In ("target"%string, Vehicle.mk "target" "horizontal" 2 2 0)
            (vehicles scenarioA)) as Hin by (left; reflexivity).
  split; [exact Hin|].
  exact (add_vehicle_collides_with_itself scenarioA _ _ 1 Hin
           ltac:(simpl; lia)).
Defined.

(** When [add_vehicle] accepts a vehicle whose id is already a key of the
    board, the earlier vehicle under that id is overwritten in place: the
    keys, their order and their number stay the same. *)
Theorem add_vehicle_overwrites b v b' :
  In (Vehicle.id v) (keys (vehicles b)) ->
  add_vehicle b v = (true, b') ->
  keys (vehicles b') = keys (vehicles b)
  /\ lookup (Vehicle.id v) (vehicles b') = Some v.
Proof.
  intros Hin E. destruct (add_vehicle_cases b v) as [[_ E']|[_ E']];
    rewrite E' in E; [discriminate|].
  injection E as <-. simpl. split.
  - now apply keys_dict_set_present.
  - apply lookup_dict_set_eq.
Qed.

Lemma add_vehicle_overwrites_witness :
  In "target"%string (keys (vehicles scenarioA))
  /\ add_vehicle scenarioA (Vehicle.mk "target" "vertical" 3 0 5)
     = (true, mkBoard 6 [("target"%string, Vehicle.mk "target" "vertical" 3 0 5)])
  /\ keys (vehicles (mkBoard 6 [("target"%string,
                                   Vehicle.mk "target" "vertical" 3 0 5)]))
     = keys (vehicles scenarioA).
Proof.
  assert (In "target"%string (keys (vehicles scenarioA))) as Hin
      by (left; reflexivity).
  split; [exact Hin|]. split; [reflexivity|].
  exact (proj1 (add_vehicle_overwrites scenarioA
                  (Vehicle.mk "target" "vertical" 3 0 5) _ Hin eq_refl)).
Defined.

(** The cells of a vehicle are pairwise distinct and there are
    [max(0, length)] of them. *)
Theorem occupies_distinct_cells v :
  NoDup (Vehicle.occupies v)
  /\ List.length (Vehicle.occupies v) = Z.to_nat (Vehicle.length v).
Proof.
  unfold Vehicle.occupies. split.
  - apply Finite.Injective_map_NoDup; [|apply NoDup_range].
    intros i j H. apply (cell_at_inj v). exact H.
  - rewrite length_map, length_range. f_equal. lia.
Qed.

(** ** The moves offered *)

(** Whatever the board, every move of [get_possible_moves] names a key of
    the board and has a non-zero step count of magnitude below the board
    size. *)
Theorem get_possible_moves_range b k s :
  In (k, s) (get_possible_moves b) ->
  In k (keys (vehicles b)) /\ s <> 0 /\ - size b < s < size b.
Proof.
  intros H. apply In_get_possible_moves in H as (v & Hin & H).
  split; [|destruct H as [[? _]|[? _]]; lia].
  change k with (fst (k, v)). now apply in_map.
Qed.

Lemma get_possible_moves_range_witness :
  In ("car_2"%string, -1) (get_possible_moves scenarioC)
  /\ In "car_2"%string (keys (vehicles scenarioC))
  /\ -1 <> 0 /\ - size scenarioC < -1 < size scenarioC.
Proof.
  assert (In ("car_2"%string, -1) (get_possible_moves scenarioC)) as Hm by in_list.
  split; [exact Hm|].
  exact (get_possible_moves_range scenarioC "car_2" (-1) Hm).
Defined.

Lemma NoDup_scan blocked l : NoDup l -> NoDup (scan blocked l).
Proof.
  assert (forall x l, In x (scan blocked l) -> In x l) as Hsub.
  { intros x l0. induction l0 as [|a l0 IH]; simpl; [auto|].
    destruct (blocked a); simpl; [intros []|intuition]. }
  induction 1 as [|a l0 Ha Hnd IH]; simpl; [constructor|].
  destruct (blocked a); constructor; auto.
Qed.

(** On a board whose keys are distinct, [get_possible_moves] lists no move
    twice. *)
Theorem get_possible_moves_NoDup b :
  NoDup (keys (vehicles b)) -> NoDup (get_possible_moves b).
Proof.
  unfold get_possible_moves. generalize (get_occupied_cells b) as occ. intros occ.
  induction (vehicles b) as [|[k v] d IH]; simpl; intros Hnd; [constructor|].
  inversion Hnd as [|? ? Hk Hnd']; subst.
  apply NoDup_app; [|auto|].
  - apply NoDup_app.
    + apply Finite.Injective_map_NoDup; [intros x y [=]; assumption|].
      apply NoDup_scan, NoDup_range.
    + apply Finite.Injective_map_NoDup; [intros x y [=]; lia|].
      apply NoDup_scan, NoDup_range.
    + intros [k' s] H1 H2.
      apply in_map_iff in H1 as (s1 & [= -> <-] & H1).
      apply in_map_iff in H2 as (s2 & [= E] & H2).
      apply In_scan in H1. apply In_scan in H2. lia.
  - intros [k' s] H1 H2.
    assert (k' = k) as ->.
    { apply in_app_or in H1 as [H1|H1];
        apply in_map_iff in H1 as (s1 & [= -> _] & _); reflexivity. }
    apply Hk. apply in_flat_map in H2 as ([k2 v2] & Hin & H2).
    unfold vehicle_moves in H2.
    assert (k = k2) as ->.
    { apply in_app_or in H2 as [H2|H2];
        apply in_map_iff in H2 as (s2 & [= -> _] & _); reflexivity. }
    change k2 with (fst (k2, v2)). now apply in_map.
Qed.

Lemma get_possible_moves_NoDup_witness :
  NoDup (keys (vehicles scenarioC)) /\ NoDup (get_possible_moves scenarioC).
Proof.
  assert (NoDup (keys (vehicles scenarioC))) as Hnd by apply scenarioC_valid.
  split; [exact Hnd|].
  exact (get_possible_moves_NoDup scenarioC Hnd).
Defined.

(** ** Moves that change nothing, and moves undone *)

Lemma move_entries_unchanged k s (d : dict Vehicle.t) :
  ~ In k (keys d) \/ s = 0 -> map (move_entry k s) d = values d.
Proof.
  intros H. unfold values. apply map_ext_in. intros [k' v] Hin.
  rewrite move_entry_eq. simpl.
  destruct (String.eqb_spec k' k) as [->|]; [|reflexivity].
  destruct H as [H| ->]; [|apply slide_0].
  exfalso. apply H. change k with (fst (k, v)). now apply in_map.
Qed.

(** On a well-formed board, [move] with an id that is no key of the board,
    or with 0 steps, fails in no way and returns a board equal to the
    input. *)
Theorem move_unknown_id_or_zero b v_id steps :
  well_formed b -> ~ In v_id (keys (vehicles b)) \/ steps = 0 ->
  move b v_id steps = b.
Proof.
  intros Hwf H. unfold move.
  rewrite fold_move_entry, (move_entries_unchanged _ _ _ H).
  now apply rebuild_wf.
Qed.

Lemma move_unknown_id_or_zero_witness :
  well_formed scenarioC
  /\ ~ In "bus"%string (keys (vehicles scenarioC))
  /\ move scenarioC "bus" 3 = scenarioC.
Proof.
  assert (well_formed scenarioC) as Hwf by apply scenarioC_valid.
  assert (~ In "bus"%string (keys (vehicles scenarioC))) as Hk
      by (simpl; intuition discriminate).
  split; [exact Hwf|]. split; [exact Hk|].
  exact (move_unknown_id_or_zero scenarioC "bus" 3 Hwf (or_introl Hk)).
Defined.

Lemma free_for_slid b k s v' :
  free_for (mkBoard (size b) (slid k s (vehicles b))) k v' <-> free_for b k v'.
Proof.
  unfold free_for. simpl. split; intros [Hw Hno]; (split; [assumption|]);
    intros k' w Hin Hne; apply (Hno k' w); auto;
    now apply (In_slid_other k s (vehicles b) k' w Hne).
Qed.

Lemma legal_move_back b v_id steps :
  valid_board b -> In (v_id, steps) (get_possible_moves b) ->
  In (v_id, - steps) (get_possible_moves (move b v_id steps))
  /\ move (move b v_id steps) v_id (- steps) = b.
Proof.
  intros Hv Hm. pose proof Hv as [Hwf _].
  pose proof (move_legal_valid _ _ _ Hv Hm) as Hv'.
  pose proof (move_legal _ _ _ Hwf Hm) as E.
  destruct (legal_clear_lane _ _ _ Hwf Hm) as (v & Hin & Hlane).
  assert (In (v_id, - steps) (get_possible_moves (move b v_id steps))) as Hback.
  { apply (clear_lane_legal _ _ (slide v steps)); [assumption| |].
    - rewrite E. simpl. now apply In_slid_same.
    - assert (forall t, free_for b v_id (slide v t) ->
                free_for (move b v_id steps) v_id (slide v t)) as Hfree.
      { intros t Ht. rewrite E. now apply free_for_slid. }
      pose proof (wf_free_self _ _ _ Hwf Hin) as Hself.
      rewrite <- (slide_0 v) in Hself.
      destruct Hlane as [[Hs Hall]|[Hs Hall]]; [right|left]; (split; [lia|]);
        intros t Ht; rewrite slide_slide; apply Hfree;
        (destruct (Z.eq_dec (steps + t) 0) as [->|Hne];
         [exact Hself|apply Hall; lia]). }
  split; [assumption|].
  rewrite (move_legal _ _ _ (proj1 Hv') Hback). rewrite E. simpl.
  rewrite slid_slid, Z.add_opp_diag_r, slid_0. now destruct b.
Qed.

(** On a valid board every move of [get_possible_moves] can be undone: the
    opposite move is offered on the board that [move] returns, and it leads
    back to the board one started from. *)
Theorem move_undo b v_id steps :
  valid_board b -> In (v_id, steps) (get_possible_moves b) ->
  In (v_id, - steps) (get_possible_moves (move b v_id steps))
  /\ move (move b v_id steps) v_id (- steps) = b.
Proof. apply legal_move_back. Qed.

Lemma move_undo_witness :
  valid_board scenarioC
  /\ In ("truck_1"%string, 2) (get_possible_moves scenarioC)
  /\ In ("truck_1"%string, - (2)) (get_possible_moves (move scenarioC "truck_1" 2))
  /\ move (move scenarioC "truck_1" 2) "truck_1" (- (2)) = scenarioC.
Proof.
  assert (In ("truck_1"%string, 2) (get_possible_moves scenarioC)) as Hm by in_list.
  split; [exact scenarioC_valid|]. split; [exact Hm|].
  exact (move_undo scenarioC "truck_1" 2 scenarioC_valid Hm).
Defined.

(** * Further properties of the solver *)

(** ** A negative answer covers every board within the depth ceiling *)

Section Completeness.
Variable b0 : Board.
Hypothesis Hwf : well_formed b0.

(** As [closed], for the boards that lie below the depth ceiling: those
    are the boards the loop expands. *)
Definition closed_below (pending : Board -> nat -> Move -> Prop)
    (q : list Entry) (V : list StateHash) : Prop :=
  forall j b m,
    reach b0 j b -> (j < MAX_DEPTH)%nat ->
    In (get_state_hash b) V -> In m (get_possible_moves b) ->
    In (get_state_hash (move b (fst m) (snd m))) V
    \/ (exists e, In e q /\ e_board e = b /\ (e_depth e <= j)%nat)
    \/ pending b j m.

Definition exploring (cur : Board) (d : nat) (pm : list Move)
    (q : list Entry) (V : list StateHash) : Prop :=
  reach b0 d cur
  /\ (forall m, In m pm -> In m (get_possible_moves cur))
  /\ In (get_state_hash b0) V
  /\ unsolved_seen b0 V
  /\ closed_below (fun b j m => b = cur /\ (d <= j)%nat /\ In m pm) q V
  /\ queue_ok b0 d q.

Definition explored (q : list Entry) (V : list StateHash) : Prop :=
  In (get_state_hash b0) V
  /\ unsolved_seen b0 V
  /\ closed_below (fun _ _ _ => False) q V
  /\ exists d, queue_ok b0 d q.

Definition exhaustive_result (r : Result) : Prop :=
  solvable r = false ->
  forall j b, reach b0 j b -> (j <= MAX_DEPTH)%nat -> is_solved b = false.

Lemma unseen_deeper_below cur d pm q V j b :
  exploring cur d pm q V -> reach b0 j b -> (j <= MAX_DEPTH)%nat ->
  In (get_state_hash b) V \/ (d < j)%nat.
Proof.
  intros (_ & _ & H0 & _ & Hcl & Hq & _).
  induction 1 as [|j b m Hr IH Hm]; intros Hj; [now left|].
  destruct IH as [Hin|Hlt]; [lia| |right; lia].
  destruct (Hcl _ _ _ Hr ltac:(lia) Hin Hm)
    as [H|[(e & He & _ & Hd)|(_ & Hd & _)]].
  - now left.
  - right. destruct (Hq _ He) as [_ ?]. lia.
  - right. lia.
Qed.

Lemma exploring_step cur d path k s rest q V :
  exploring cur d ((k, s) :: rest) q V ->
  let next := move cur k s in
  (In (get_state_hash next) V -> exploring cur d rest q V)
  /\ (~ In (get_state_hash next) V -> is_solved next = true ->
      exhaustive_result (true, S d, path ++ [(k, s)])%list)
  /\ (~ In (get_state_hash next) V -> is_solved next = false ->
      exploring cur d rest (q ++ [(next, S d, path ++ [(k, s)])])%list
        (get_state_hash next :: V)).
Proof.
  intros HJ next.
  pose proof HJ as (Hcur & Hpm & H0 & Hun & Hcl & Hq & Hsorted).
  assert (In (k, s) (get_possible_moves cur)) as Hm by (apply Hpm; now left).
  assert (reach b0 (S d) next) as Hnext by (apply (reach_S _ _ _ (k, s)); assumption).
  assert (forall m, In m rest -> In m (get_possible_moves cur)) as Hpm'
      by (intros m Hin; apply Hpm; now right).
  split; [|split].
  - intros Hseen. repeat (split; [assumption|]). split; [|now split].
    intros j b m Hr Hj Hin Hmb.
    destruct (Hcl _ _ _ Hr Hj Hin Hmb) as [H|[H|(-> & Hd & [<-|Hrest])]]; auto.
  - intros _ _ [=].
  - intros Hnew Hunsolved.
    split; [assumption|]. split; [assumption|]. split; [now right|].
    split; [|split; [|split]].
    + intros j b Hr [Hh|Hin]; [|exact (Hun _ _ Hr Hin)].
      now rewrite <- (reach_hash_inj _ _ _ _ _ Hwf Hnext Hr Hh).
    + intros j b m Hr Hj [Hh|Hin] Hmb.
      * right; left.
        pose proof (reach_hash_inj _ _ _ _ _ Hwf Hnext Hr Hh) as E.
        exists (next, S d, (path ++ [(k, s)])%list).
        split; [apply in_or_app; right; now left|]. split; [assumption|].
        unfold e_depth. simpl.
        destruct (unseen_deeper_below _ _ _ _ _ _ _ HJ Hr ltac:(lia))
          as [Hin|Hlt]; [|lia].
        rewrite <- Hh in Hin. contradiction.
      * destruct (Hcl _ _ _ Hr Hj Hin Hmb)
          as [H|[(e & He & Hb & Hd)|(-> & Hd & [<-|Hrest])]].
        -- left. now right.
        -- right; left. exists e. split; [apply in_or_app; now left|auto].
        -- left. now left.
        -- right; right. auto.
    + intros e He. apply in_app_or in He as [He|[<-|[]]]; [now apply Hq|].
      unfold e_depth, e_board. simpl. split; [assumption|lia].
    + rewrite map_app. simpl. apply StronglySorted_snoc; [assumption|].
      apply Forall_forall. intros x Hx. apply in_map_iff in Hx as (e & <- & He).
      now destruct (Hq _ He) as [_ [_ ?]].
Qed.

Lemma bfs_exhaustive fuel q V r :
  explored q V -> bfs fuel q V = Some r -> exhaustive_result r.
Proof.
  revert fuel q V r. apply (bfs_rule explored exhaustive_result).
  - intros V (H0 & Hun & Hcl & _) _ j b Hr Hj.
    apply (Hun j b Hr). clear Hun.
    induction Hr as [|j b m Hr IH Hm]; [assumption|].
    destruct (Hcl _ _ _ Hr ltac:(lia) (IH ltac:(lia)) Hm)
      as [H|[(e & [] & _)|[]]].
    assumption.
  - intros cur d path q V (H0 & Hun & Hcl & d0 & Hq & Hs) Hd.
    repeat (split; [assumption|]). split.
    + intros j b m Hr Hj Hin Hm.
      destruct (Hcl _ _ _ Hr Hj Hin Hm) as [H|[(e & [<-|He] & Hb & Hde)|[]]].
      * now left.
      * unfold e_depth in Hde. simpl in Hde. lia.
      * right; left. eauto.
    + exists d0. split.
      * intros e He. apply Hq. now right.
      * simpl in Hs. now apply StronglySorted_inv in Hs as [Hs _].
  - intros cur d path q V (H0 & Hun & Hcl & d0 & Hq & Hs) Hd.
    apply (expand_rule (exploring cur d) exhaustive_result).
    + apply exploring_step.
    + intros q' V' (_ & _ & H0' & Hun' & Hcl' & Hq').
      repeat (split; [assumption|]). split; [|now exists d].
      intros j b m Hr Hj Hin Hm.
      destruct (Hcl' _ _ _ Hr Hj Hin Hm) as [H|[H|(_ & _ & [])]]; auto.
    + destruct (Hq (cur, d, path) (or_introl eq_refl)) as [Hcur Hd0].
      unfold e_depth, e_board in Hcur, Hd0. simpl in Hcur, Hd0.
      simpl in Hs. apply StronglySorted_inv in Hs as [Hs Hmin].
      split; [assumption|]. split; [auto|]. split; [assumption|].
      split; [assumption|]. split; [|split; [|assumption]].
      * intros j b m Hr Hj Hin Hm.
        destruct (Hcl _ _ _ Hr Hj Hin Hm) as [H|[(e & [<-|He] & Hb & Hde)|[]]].
        -- now left.
        -- unfold e_board, e_depth in Hb, Hde. simpl in Hb, Hde. subst b.
           right; right. auto.
        -- right; left. eauto.
      * intros e He. destruct (Hq e (or_intror He)) as [Hre Hde].
        split; [assumption|].
        rewrite Forall_forall in Hmin.
        assert (d <= e_depth e)%nat by (apply Hmin; now apply in_map). lia.
Qed.

Lemma solve_board_exhaustive r path b' :
  solve_board_returns b0 r -> solvable r = false ->
  legal_path b0 path b' -> (List.length path <= MAX_DEPTH)%nat ->
  is_solved b' = false.
Proof.
  intros [fuel H] Hs Hp Hlen. unfold solve_board_fuel in H.
  destruct (is_solved b0) eqn:Es.
  { injection H as <-. discriminate Hs. }
  apply bfs_exhaustive in H.
  - exact (H Hs _ _ (legal_path_reach _ _ _ Hp) Hlen).
  - split; [now left|].
    assert (forall j b, reach b0 j b ->
              In (get_state_hash b) [get_state_hash b0] -> b = b0) as Hroot.
    { intros j b Hr [Hh|[]]. symmetry.
      exact (reach_hash_inj _ _ _ _ _ Hwf (reach_O b0) Hr Hh). }
    split; [|split].
    + intros j b Hr Hin. now rewrite (Hroot _ _ Hr Hin).
    + intros j b m Hr Hj Hin Hm. right; left.
      exists (b0, O, []). split; [now left|].
      split; [symmetry; eauto|unfold e_depth; simpl; lia].
    + exists O. split.
      * intros e [<-|[]]. unfold e_depth, e_board. simpl.
        split; [apply reach_O|lia].
      * simpl. repeat constructor.
Qed.
End Completeness.

Lemma bfs_depth_bounds fuel q V r :
  bfs fuel q V = Some r -> solvable r = true ->
  (1 <= min_moves r <= MAX_DEPTH)%nat.
Proof.
  intros H.
  apply (bfs_rule (fun _ _ => True)
           (fun r => solvable r = true -> (1 <= min_moves r <= MAX_DEPTH)%nat))
    with (fuel := fuel) (q := q) (V := V); [| | |exact I|exact H].
  - intros _ _ [=].
  - auto.
  - intros cur d path q0 V0 _ Hd.
    apply (expand_rule (fun _ _ _ => True)
             (fun r => solvable r = true -> (1 <= min_moves r <= MAX_DEPTH)%nat));
      auto.
    intros k s rest q' V' _ next. repeat split; auto;
      unfold min_moves; simpl; lia.
Qed.

(** [solve_board] returns on every board, well formed or not, and what it
    returns is determined by the board: the [while] loop ends because no
    node at the depth ceiling is expanded and every board has finitely many
    moves. *)
Theorem solve_board_always_returns b :
  exists r, solve_board_returns b r
            /\ forall r', solve_board_returns b r' -> r' = r.
Proof.
  destruct (solve_board_total b) as [r Hr]. exists r. split; [assumption|].
  intros r' Hr'. exact (solve_board_deterministic b r' r Hr' Hr).
Qed.

(** A positive answer never reports more than [MAX_DEPTH] = 100 moves, and
    it reports 0 moves exactly when the input board is already solved. *)
Theorem solve_board_depth_range b k path :
  solve_board_returns b (true, k, path) ->
  (k <= MAX_DEPTH)%nat /\ (k = O <-> is_solved b = true).
Proof.
  intros [fuel H]. unfold solve_board_fuel in H.
  destruct (is_solved b) eqn:Es.
  - injection H as <- <-. split; [apply Nat.le_0_l|tauto].
  - pose proof (bfs_depth_bounds _ _ _ _ H eq_refl) as Hk.
    unfold min_moves in Hk. simpl in Hk. split; [lia|].
    split; [lia|discriminate].
Qed.

Lemma solve_board_depth_range_witness :
  solve_board_returns scenarioC
    (true, 3%nat,
     [("car_2"%string, -1); ("truck_1"%string, 3); ("target"%string, 4)])
  /\ (3 <= MAX_DEPTH)%nat /\ (3%nat = O <-> is_solved scenarioC = true).
Proof.
  split; [exact scenarioC_solution|].
  exact (solve_board_depth_range scenarioC 3 _ scenarioC_solution).
Defined.

(** Every move of the path of a positive answer is one of
    [get_possible_moves] of the board it is applied to when the path is
    replayed from the input board. *)
Theorem solve_board_path_legal b k path :
  solve_board_returns b (true, k, path) ->
  legal_path b path (replay b path).
Proof.
  intros Hret.
  destruct (solve_board_sound b _ Hret eq_refl) as (b' & Hp & _).
  unfold solution in Hp. simpl in Hp.
  now rewrite (replay_legal _ _ _ Hp).
Qed.

Lemma solve_board_path_legal_witness :
  solve_board_returns scenarioC
    (true, 3%nat,
     [("car_2"%string, -1); ("truck_1"%string, 3); ("target"%string, 4)])
  /\ legal_path scenarioC
       [("car_2"%string, -1); ("truck_1"%string, 3); ("target"%string, 4)]
       (replay scenarioC
          [("car_2"%string, -1); ("truck_1"%string, 3); ("target"%string, 4)]).
Proof.
  split; [exact scenarioC_solution|].
  exact (solve_board_path_legal scenarioC 3 _ scenarioC_solution).
Defined.

(** The scenario of a truck across the target's lane that cannot leave it:
    the truck fills column 4 from row 0 to row 5 on a 6x6 board. *)
Definition scenarioB : Board :=
  mkBoard 6 [("target"%string, Vehicle.mk "target" "horizontal" 2 2 0);
             ("wall"%string, Vehicle.mk "wall" "vertical" 6 0 4)].

Lemma scenarioB_valid : valid_board scenarioB.
Proof. concrete_board. Qed.

Lemma scenarioB_solution : solve_board_returns scenarioB (false, O, []).
Proof. exists 20%nat. vm_compute. reflexivity. Qed.

(** On a well-formed board, when [solve_board] answers not solvable, no
    sequence of at most [MAX_DEPTH] = 100 moves, each one of
    [get_possible_moves] of the board it is applied to, leads to a solved
    board. *)
Theorem solve_board_negative_exhaustive b k path :
  well_formed b -> solve_board_returns b (false, k, path) ->
  forall p b', legal_path b p b' -> (List.length p <= MAX_DEPTH)%nat ->
               is_solved b' = false.
Proof.
  intros Hwf Hret p b' Hp Hlen.
  exact (solve_board_exhaustive b Hwf _ p b' Hret eq_refl Hp Hlen).
Qed.

Lemma solve_board_negative_exhaustive_witness :
  well_formed scenarioB
  /\ solve_board_returns scenarioB (false, O, [])
  /\ is_solved (move scenarioB "target" 2) = false.
Proof.
  assert (well_formed scenarioB) as Hwf by apply scenarioB_valid.
  split; [exact Hwf|]. split; [exact scenarioB_solution|].
  apply (solve_board_negative_exhaustive scenarioB O [] Hwf scenarioB_solution
           [("target"%string, 2)]).
  - apply legal_cons; [in_list|apply legal_nil].
  - unfold MAX_DEPTH. simpl. lia.
Defined.

(** ** [get_moves_count] *)

Definition get_moves_count_fuel (fuel : nat) (board : Board) : option Z :=
  match solve_board_fuel fuel board with
  | Some (solved, moves, _) => Some (if solved then Z.of_nat moves else -1)
  | None => None
  end.

(** [get_moves_count board] returns [n]. *)
Definition get_moves_count_returns (board : Board) (n : Z) : Prop :=
  exists fuel, get_moves_count_fuel fuel board = Some n.

Lemma get_moves_count_solve b n :
  get_moves_count_returns b n <->
  exists r, solve_board_returns b r
            /\ n = if solvable r then Z.of_nat (min_moves r) else -1.
Proof.
  unfold get_moves_count_returns, get_moves_count_fuel, solve_board_returns. split.
  - intros [fuel H]. destruct (solve_board_fuel fuel b) as [[[s m] p]|] eqn:E;
      [|discriminate].
    injection H as <-. exists (s, m, p). split; [eauto|reflexivity].
  - intros ([[s m] p] & [fuel E] & ->). exists fuel. now rewrite E.
Qed.

(** [get_moves_count] returns on every board, and what it returns is -1 or
    a number from 0 to 100. *)
Theorem get_moves_count_range b :
  exists n, get_moves_count_returns b n
            /\ -1 <= n <= Z.of_nat MAX_DEPTH
            /\ forall n', get_moves_count_returns b n' -> n' = n.
Proof.
  destruct (solve_board_total b) as [[[s m] p] Hr].
  exists (if s then Z.of_nat m else -1). split; [|split].
  - apply get_moves_count_solve. exists (s, m, p). auto.
  - destruct s; [|lia].
    destruct Hr as [fuel H]. unfold solve_board_fuel in H.
    destruct (is_solved b).
    + injection H as <-. lia.
    + pose proof (bfs_depth_bounds _ _ _ _ H eq_refl) as Hk.
      unfold min_moves in Hk. simpl in Hk. lia.
  - intros n' Hn'. apply get_moves_count_solve in Hn' as (r' & Hr' & ->).
    now rewrite (solve_board_deterministic b r' _ Hr' Hr).
Qed.

(** On a well-formed board, the number [get_moves_count] returns is the
    distance to the nearest solved board: a sequence of that many legal
    moves ends solved and no shorter one does; and it returns -1 exactly
    when no sequence of at most 100 legal moves ends solved. *)
Theorem get_moves_count_distance b n :
  well_formed b -> get_moves_count_returns b n ->
  (n = -1 /\ forall p b', legal_path b p b' ->
                (List.length p <= MAX_DEPTH)%nat -> is_solved b' = false)
  \/ (0 <= n
      /\ (exists p b', legal_path b p b' /\ Z.of_nat (List.length p) = n
                       /\ is_solved b' = true)
      /\ forall p b', legal_path b p b' -> Z.of_nat (List.length p) < n ->
                      is_solved b' = false).
Proof.
  intros Hwf Hn. apply get_moves_count_solve in Hn as ([[s m] p] & Hr & ->).
  unfold solvable, min_moves. simpl. destruct s.
  - right. split; [lia|]. split.
    + destruct (solve_board_sound b _ Hr eq_refl) as (b' & Hp & Hs & Hlen).
      unfold solution, min_moves in *. simpl in *.
      exists p, b'. repeat split; auto; lia.
    + intros p' b' Hp' Hlen.
      apply (solve_board_least b Hwf _ p' b' Hr eq_refl Hp').
      unfold min_moves. simpl. lia.
  - left. split; [reflexivity|]. intros p' b' Hp' Hlen.
    exact (solve_board_exhaustive b Hwf _ p' b' Hr eq_refl Hp' Hlen).
Qed.

Lemma get_moves_count_distance_witness :
  well_formed scenarioC
  /\ get_moves_count_returns scenarioC 3
  /\ is_solved (move scenarioC "car_2" (-1)) = false.
Proof.
  assert (well_formed scenarioC) as Hwf by apply scenarioC_valid.
  assert (get_moves_count_returns scenarioC 3) as Hn
      by (exists 200%nat; vm_compute; reflexivity).
  split; [exact Hwf|]. split; [exact Hn|].
  destruct (get_moves_count_distance scenarioC 3 Hwf Hn) as [[E _]|(_ & _ & H)].
  - discriminate E.
  - apply (H [("car_2"%string, -1)]).
    + apply legal_cons; [in_list|apply legal_nil].
    + simpl. lia.
Defined.

(** * Further properties of the state hash *)

From Stdlib Require OrderedTypeEx.

Lemma String_leb_iff a b :
  String.leb a b = true <-> OrderedTypeEx.String_as_OT.lt a b \/ a = b.
Proof.
  unfold String.leb.
  rewrite <- OrderedTypeEx.String_as_OT.cmp_lt, <- OrderedTypeEx.String_as_OT.cmp_eq.
  unfold OrderedTypeEx.String_as_OT.cmp.
  destruct (String.compare a b); intuition discriminate.
Qed.

Lemma String_leb_trans a b c :
  String.leb a b = true -> String.leb b c = true -> String.leb a c = true.
Proof.
  rewrite !String_leb_iff. intros [H1| ->] [H2| ->]; auto.
  left. eapply OrderedTypeEx.String_as_OT.lt_trans; eauto.
Qed.

Lemma sorted_StronglySorted l :
  StronglySorted (fun a b => String.leb a b = true) (sorted l).
Proof.
  apply StringSort.StronglySorted_sort.
  intros a b c. apply String_leb_trans.
Qed.

Lemma StronglySorted_perm_eq (l1 l2 : list string) :
  StronglySorted (fun a b => String.leb a b = true) l1 ->
  StronglySorted (fun a b => String.leb a b = true) l2 ->
  Permutation l1 l2 -> l1 = l2.
Proof.
  intros H1. revert l2. induction H1 as [|a l1 Hs IH Ha]; intros l2 H2 Hp.
  - now apply Permutation_nil in Hp.
  - destruct H2 as [|b l2 Hs2 Hb].
    + apply Permutation_sym, Permutation_nil in Hp. discriminate.
    + assert (a = b) as ->.
      { rewrite Forall_forall in Ha, Hb.
        assert (In b (a :: l1)) as Hin1
            by (apply (Permutation_in _ (Permutation_sym Hp)); now left).
        assert (In a (b :: l2)) as Hin2
            by (apply (Permutation_in _ Hp); now left).
        destruct Hin1 as [E|Hin1]; [assumption|].
        destruct Hin2 as [E|Hin2]; [now symmetry|].
        apply String.leb_antisym; auto. }
      f_equal. apply IH; [assumption|]. now apply Permutation_cons_inv in Hp.
Qed.

Lemma sorted_perm l1 l2 : Permutation l1 l2 -> sorted l1 = sorted l2.
Proof.
  intros Hp. apply StronglySorted_perm_eq; try apply sorted_StronglySorted.
  unfold sorted.
  eapply Permutation_trans; [apply Permutation_sym, StringSort.Permuted_sort|].
  eapply Permutation_trans; [exact Hp|apply StringSort.Permuted_sort].
Qed.

(** The state hash does not depend on the order in which the vehicles were
    inserted: two mappings with distinct keys that hold the same entries in
    any order have the same hash.  (The board size is not part of it.) *)
Theorem get_state_hash_order b1 b2 :
  NoDup (keys (vehicles b1)) ->
  Permutation (vehicles b1) (vehicles b2) ->
  get_state_hash b1 = get_state_hash b2.
Proof.
  intros Hnd Hp. unfold get_state_hash.
  assert (Permutation (keys (vehicles b1)) (keys (vehicles b2))) as Hk
      by (now apply Permutation_map).
  rewrite <- (sorted_perm _ _ Hk).
  assert (NoDup (keys (vehicles b2))) as Hnd2
      by (exact (Permutation_NoDup Hk Hnd)).
  apply flat_map_ext. intros k.
  destruct (lookup k (vehicles b1)) as [v|] eqn:E1.
  - apply lookup_In in E1. apply (Permutation_in _ Hp) in E1.
    now rewrite (In_lookup _ _ _ Hnd2 E1).
  - destruct (lookup k (vehicles b2)) as [v|] eqn:E2; [|reflexivity].
    apply lookup_In in E2. apply (Permutation_in _ (Permutation_sym Hp)) in E2.
    rewrite (In_lookup _ _ _ Hnd E2) in E1. discriminate.
Qed.

Lemma get_state_hash_order_witness :
  NoDup (keys (vehicles scenarioC))
  /\ Permutation (vehicles scenarioC) (rev (vehicles scenarioC))
  /\ get_state_hash scenarioC
     = get_state_hash (mkBoard 6 (rev (vehicles scenarioC))).
Proof.
  assert (NoDup (keys (vehicles scenarioC))) as Hnd by apply scenarioC_valid.
  split; [exact Hnd|]. split; [apply Permutation_rev|].
  exact (get_state_hash_order scenarioC (mkBoard 6 (rev (vehicles scenarioC)))
           Hnd (Permutation_rev _)).
Defined.

(** Among the boards reached by legal moves from one well-formed board, the
    state hash identifies the board: equal hashes, equal boards.  This is
    what lets the solver keep hashes, not boards, in its visited set. *)
Theorem get_state_hash_identifies b0 p1 b1 p2 b2 :
  well_formed b0 -> legal_path b0 p1 b1 -> legal_path b0 p2 b2 ->
  (get_state_hash b1 = get_state_hash b2 <-> b1 = b2).
Proof.
  intros Hwf H1 H2. split; [|now intros ->].
  apply (reach_hash_inj b0 (List.length p1) b1 (List.length p2) b2 Hwf);
    now apply legal_path_reach.
Qed.

Lemma get_state_hash_identifies_witness :
  well_formed scenarioC
  /\ (get_state_hash (move (move scenarioC "car_2" (-1)) "truck_1" 1)
      = get_state_hash (move (move scenarioC "truck_1" 1) "car_2" (-1))
      <-> move (move scenarioC "car_2" (-1)) "truck_1" 1
          = move (move scenarioC "truck_1" 1) "car_2" (-1)).
Proof.
  assert (well_formed scenarioC) as Hwf by apply scenarioC_valid.
  split; [exact Hwf|].
  apply (get_state_hash_identifies scenarioC
           [("car_2"%string, -1); ("truck_1"%string, 1)] _
           [("truck_1"%string, 1); ("car_2"%string, -1)] _ Hwf).
  - apply legal_cons; [in_list|]. apply legal_cons; [in_list|]. apply legal_nil.
  - apply legal_cons; [in_list|]. apply legal_cons; [in_list|]. apply legal_nil.
Defined.

(** * The generator: [convert_to_game_format] *)

From Stdlib Require DecimalString DecimalZ DecimalPos.

(** [str(n)], the decimal text of an integer, as an f-string prints it. *)
Definition str (n : Z) : string :=
  DecimalString.NilZero.string_of_int (Z.to_int n).

Lemma str_inj n n' : str n = str n' -> n = n'.
Proof.
  assert (forall z, Z.to_int z <> Decimal.Pos Decimal.Nil
                    /\ Z.to_int z <> Decimal.Neg Decimal.Nil) as Hnn.
  { intros [|p|p]; simpl; split; try discriminate; intros [= H];
      now apply DecimalPos.Unsigned.to_uint_nonnil in H. }
  unfold str. intros E. apply DecimalZ.to_int_inj.
  destruct (Hnn n) as [Hn1 Hn2]. destruct (Hnn n') as [Hn1' Hn2'].
  pose proof (DecimalString.NilZero.isi _ Hn1 Hn2) as H.
  pose proof (DecimalString.NilZero.isi _ Hn1' Hn2') as H'.
  rewrite E in H. congruence.
Qed.

(** One vehicle of the game's level format: the dict with the keys "id",
    "orientation", "length" and "position" (itself "row" and "col");
    [is_target] tells whether the key "is_target" is there, with [True]. *)
Module GameVehicle.
Record t := mk
  { id : string;
    orientation : string;
    length : Z;
    row : Z;
    col : Z;
    is_target : bool }.
End GameVehicle.

(** The dict [convert_to_game_format] returns. *)
Module GameLevel.
Record t := mk
  { id : Z;
    difficulty : string;
    minMoves : nat;
    vehicles : list GameVehicle.t }.
End GameLevel.

(** The dict [generate_random_level] returns: "difficulty_score" and
    "vehicles". *)
Definition GeneratedLevel : Type := nat * dict Vehicle.t.

(** The loop over [generated_level['vehicles'].items()], with its counter. *)
Fixpoint convert_others (items : dict Vehicle.t) (count : Z)
  : list GameVehicle.t :=
  match items with
  | [] => []
  | (v_id, v) :: rest =>
      if String.eqb v_id "target" then convert_others rest count
      else
        let prefix := if Vehicle.length v =? 2 then "car"%string else "truck"%string in
        let final_id := String.append prefix (str count) in
        GameVehicle.mk final_id (Vehicle.orientation v) (Vehicle.length v)
          (Vehicle.row v) (Vehicle.col v) false
        :: convert_others rest (count + 1)
  end.

(** [None] stands for the [KeyError] of [generated_level['vehicles']['target']]. *)
Definition convert_to_game_format (generated_level : GeneratedLevel)
    (level_id : Z) : option GameLevel.t :=
  match lookup "target" (snd generated_level) with
  | None => None
  | Some target =>
      Some (GameLevel.mk level_id "Generated"%string (fst generated_level)
              (GameVehicle.mk "target"%string "horizontal"%string 2
                 (Vehicle.row target) (Vehicle.col target) true
               :: convert_others (snd generated_level) 1))
  end.

(** The vehicles other than the target, in the order of the mapping. *)
Definition obstacles (d : dict Vehicle.t) : list Vehicle.t :=
  values (filter (fun e => negb (String.eqb (fst e) "target")) d).

Lemma convert_others_geometry items count :
  map (fun g => (GameVehicle.orientation g, GameVehicle.length g,
                 GameVehicle.row g, GameVehicle.col g))
      (convert_others items count)
  = map (fun v => (Vehicle.orientation v, Vehicle.length v,
                   Vehicle.row v, Vehicle.col v))
        (obstacles items).
Proof.
  unfold obstacles. revert count.
  induction items as [|[k v] items IH]; intros count; simpl; [reflexivity|].
  destruct (String.eqb k "target"); simpl; [apply IH|].
  f_equal. apply IH.
Qed.

Lemma convert_others_ids items count g :
  In g (convert_others items count) ->
  GameVehicle.is_target g = false
  /\ exists c v, count <= c /\ In v (obstacles items)
       /\ GameVehicle.length g = Vehicle.length v
       /\ GameVehicle.id g
          = String.append (if Vehicle.length v =? 2 then "car"%string else "truck"%string) (str c).
Proof.
  unfold obstacles. revert count.
  induction items as [|[k v] items IH]; intros count; simpl; [intros []|].
  destruct (String.eqb k "target"); simpl.
  - apply IH.
  - intros [<-|Hin]; simpl.
    + split; [reflexivity|]. exists count, v. repeat split; auto. lia.
    + destruct (IH _ Hin) as (Ht & c & w & Hc & Hw & Hl & Hid).
      split; [assumption|]. exists c, w. repeat split; auto. lia.
Qed.

Lemma final_id_inj (l l' c c' : Z) :
  String.append (if l =? 2 then "car"%string else "truck"%string) (str c)
  = String.append (if l' =? 2 then "car"%string else "truck"%string) (str c') ->
  c = c'.
Proof.
  destruct (l =? 2), (l' =? 2); simpl; intros [= E]; now apply str_inj.
Qed.

Lemma final_id_not_target (l c : Z) :
  String.append (if l =? 2 then "car"%string else "truck"%string) (str c) <> "target"%string.
Proof. destruct (l =? 2); simpl; intros [= E]. Qed.

Lemma convert_others_NoDup items count :
  NoDup (map GameVehicle.id (convert_others items count)).
Proof.
  revert count. induction items as [|[k v] items IH]; intros count; simpl;
    [constructor|].
  destruct (String.eqb k "target"); simpl; [apply IH|].
  constructor; [|apply IH].
  intros Hin. apply in_map_iff in Hin as (g & Hid & Hg).
  apply convert_others_ids in Hg as (_ & c & w & Hc & _ & _ & Hid').
  rewrite Hid' in Hid. apply final_id_inj in Hid. lia.
Qed.

(** On a mapping that holds a target, the level starts with the target
    entry, always written as horizontal of length 2 and flagged, at the
    target's row and column; the other vehicles follow in the order of the
    mapping with their own orientation, length, row and column, unflagged,
    under an id that starts with "car" exactly when the length is 2.
    Without a target the conversion fails on the missing key. *)
Theorem convert_to_game_format_level score (vs : dict Vehicle.t) level_id :
  match lookup "target" vs with
  | None => convert_to_game_format (score, vs) level_id = None
  | Some target =>
      exists others,
        convert_to_game_format (score, vs) level_id
        = Some (GameLevel.mk level_id "Generated" score
                  (GameVehicle.mk "target" "horizontal" 2
                     (Vehicle.row target) (Vehicle.col target) true :: others))
        /\ map (fun g => (GameVehicle.orientation g, GameVehicle.length g,
                          GameVehicle.row g, GameVehicle.col g)) others
           = map (fun v => (Vehicle.orientation v, Vehicle.length v,
                            Vehicle.row v, Vehicle.col v)) (obstacles vs)
        /\ Forall (fun g =>
                     GameVehicle.is_target g = false
                     /\ exists c,
                          GameVehicle.id g
                          = String.append
                              (if GameVehicle.length g =? 2
                               then "car"%string else "truck"%string)
                              (str c)) others
  end.
Proof.
  unfold convert_to_game_format. simpl.
  destruct (lookup "target" vs) as [target|]; [|reflexivity].
  exists (convert_others vs 1). split; [reflexivity|].
  split; [apply convert_others_geometry|].
  apply Forall_forall. intros g Hg.
  apply convert_others_ids in Hg as (Ht & c & v & _ & _ & Hl & Hid).
  split; [assumption|]. exists c. now rewrite Hl.
Qed.

(** The ids of the vehicles of a converted level are pairwise distinct. *)
Theorem convert_to_game_format_ids_distinct gl level_id lvl :
  convert_to_game_format gl level_id = Some lvl ->
  NoDup (map GameVehicle.id (GameLevel.vehicles lvl)).
Proof.
  unfold convert_to_game_format.
  destruct (lookup "target" (snd gl)) as [target|]; [|discriminate].
  intros [= <-]. simpl. constructor; [|apply convert_others_NoDup].
  intros Hin. apply in_map_iff in Hin as (g & Hid & Hg).
  apply convert_others_ids in Hg as (_ & c & w & _ & _ & _ & Hid').
  rewrite Hid' in Hid. now apply final_id_not_target in Hid.
Qed.

Lemma convert_to_game_format_ids_distinct_witness :
  convert_to_game_format (3%nat, vehicles scenarioC) 1
  = Some (GameLevel.mk 1 "Generated" 3
            [GameVehicle.mk "target" "horizontal" 2 2 0 true;
             GameVehicle.mk "truck1" "vertical" 3 0 4 false;
             GameVehicle.mk "car2" "horizontal" 2 5 3 false])
  /\ NoDup ["target"%string; "truck1"%string; "car2"%string].
Proof.
  split; [reflexivity|].
  exact (convert_to_game_format_ids_distinct (3%nat, vehicles scenarioC) 1 _
           eq_refl).
Defined.

Lemma length_obstacles (d : dict Vehicle.t) :
  NoDup (keys d) -> In "target"%string (keys d) ->
  S (List.length (obstacles d)) = List.length d.
Proof.
  unfold obstacles, values. rewrite length_map.
  induction d as [|[k v] d IH]; simpl; [intros _ []|].
  intros Hnd Hin. inversion Hnd as [|? ? Hk Hnd']; subst.
  destruct (String.eqb_spec k "target") as [->|Hne]; simpl.
  - f_equal. clear IH Hin Hnd Hnd'.
    induction d as [|[k' v'] d IH]; simpl; [reflexivity|].
    destruct (String.eqb_spec k' "target") as [->|]; simpl.
    + exfalso. apply Hk. now left.
    + f_equal. apply IH. intros H. apply Hk. now right.
  - f_equal. apply IH; [assumption|]. destruct Hin as [H|H]; [contradiction|assumption].
Qed.

(** On a mapping with distinct keys that holds a target, the converted
    level lists exactly as many vehicles as the mapping. *)
Theorem convert_to_game_format_count gl level_id lvl :
  NoDup (keys (snd gl)) ->
  convert_to_game_format gl level_id = Some lvl ->
  List.length (GameLevel.vehicles lvl) = List.length (snd gl).
Proof.
  intros Hnd. unfold convert_to_game_format.
  destruct (lookup "target" (snd gl)) as [target|] eqn:E; [|discriminate].
  intros [= <-]. simpl.
  rewrite <- (length_obstacles (snd gl) Hnd).
  - f_equal.
    rewrite <- (length_map (fun g => (GameVehicle.orientation g,
                   GameVehicle.length g, GameVehicle.row g, GameVehicle.col g))).
    now rewrite convert_others_geometry, length_map.
  - apply lookup_In in E. change "target"%string with (fst ("target"%string, target)).
    now apply in_map.
Qed.

Lemma convert_to_game_format_count_witness :
  NoDup (keys (vehicles scenarioC))
  /\ List.length
       [GameVehicle.mk "target" "horizontal" 2 2 0 true;
        GameVehicle.mk "truck1" "vertical" 3 0 4 false;
        GameVehicle.mk "car2" "horizontal" 2 5 3 false]
     = List.length (vehicles scenarioC).
Proof.
  assert (NoDup (keys (vehicles scenarioC))) as Hnd by apply scenarioC_valid.
  split; [exact Hnd|].
  exact (convert_to_game_format_count (3%nat, vehicles scenarioC) 1 _ Hnd eq_refl).
Defined.

(** * The generator: [generate_random_level] *)

(** The id of the [i]-th obstacle: [f"{'car' if length==2 else 'truck'}_{i}"]. *)
Definition obstacle_id (length i : Z) : string :=
  String.append (if length =? 2 then "car"%string else "truck"%string)
    (String.append "_" (str i)).

(** The target car the generator places: at row 2, horizontal, length 2. *)
Definition target_car (target_col : Z) : Vehicle.t :=
  Vehicle.mk "target" "horizontal" 2 2 target_col.

(** What the generator hands to [add_vehicle]: the target car, or an
    obstacle of length 2 or 3 that is not horizontal on row 2. *)
Definition generated_vehicle (v : Vehicle.t) : Prop :=
  (exists c, v = target_car c)
  \/ ((exists i, Vehicle.id v = obstacle_id (Vehicle.length v) i)
      /\ (Vehicle.length v = 2 \/ Vehicle.length v = 3)
      /\ (Vehicle.orientation v = "horizontal"%string
          \/ Vehicle.orientation v = "vertical"%string)
      /\ ~ (Vehicle.row v = 2 /\ Vehicle.orientation v = "horizontal"%string)).

Section Generator.
(** The module-level random generator of Python is a state threaded
    through the calls.  Nothing is assumed of it: [randint a b] and
    [random] are any functions of the state, and [float_lt x n d] stands for
    the comparison [x < n/d] of a drawn float with a literal of the source
    (0.7 and 0.5). *)
Variables Rng Float : Type.
Variable randint : Z -> Z -> Rng -> Z * Rng.
Variable random : Rng -> Float * Rng.
Variable float_lt : Float -> Z -> Z -> bool.

(** [for _ in range(20)]: the attempts to place obstacle [i]. *)
Fixpoint place_attempts (attempts : nat) (i : Z) (orientation : string)
    (length : Z) (board : Board) (g : Rng) : Board * Rng :=
  match attempts with
  | O => (board, g)
  | S attempts' =>
      let '(row, g1) := randint 0 5 g in
      let '(col, g2) := randint 0 5 g1 in
      if (row =? 2) && String.eqb orientation "horizontal"
      then place_attempts attempts' i orientation length board g2
      else
        let v_id := obstacle_id length i in
        let new_v := Vehicle.mk v_id orientation length row col in
        let '(placed, board') := add_vehicle board new_v in
        if placed then (board', g2)
        else place_attempts attempts' i orientation length board' g2
  end.

(** [for i in range(num_vehicles)] *)
Fixpoint add_obstacles (indices : list Z) (board : Board) (g : Rng)
  : Board * Rng :=
  match indices with
  | [] => (board, g)
  | i :: rest =>
      let '(x, g1) := random g in
      let length := if float_lt x 7 10 then 2 else 3 in
      let '(y, g2) := random g1 in
      let orientation :=
        if float_lt y 5 10 then "horizontal"%string else "vertical"%string in
      let '(board', g3) := place_attempts 20 i orientation length board g2 in
      add_obstacles rest board' g3
  end.

(** One candidate board: steps 1 and 2 of the attempt loop. *)
Definition candidate (g : Rng) : Board * Rng :=
  let board := new_board 6 in
  let '(target_col, g1) := randint 0 3 g in
  let '(_, board1) := add_vehicle board (target_car target_col) in
  let '(num_vehicles, g2) := randint 8 13 g1 in
  add_obstacles (range 0 num_vehicles) board1 g2.

(** [for _ in range(max_attempts)]; the outer [None] means that the fuel
    given to [solve_board] ran out, the inner one is Python's [None]. *)
Fixpoint generate_attempts (fuel : nat) (difficulty_min_moves : Z)
    (attempts : nat) (g : Rng) : option (option GeneratedLevel * Rng) :=
  match attempts with
  | O => Some (None, g)
  | S attempts' =>
      let '(board, g1) := candidate g in
      match solve_board_fuel fuel board with
      | None => None
      | Some (is_solvable, moves, _) =>
          if is_solvable && (Z.of_nat moves >=? difficulty_min_moves)
          then Some (Some (moves, vehicles board), g1)
          else generate_attempts fuel difficulty_min_moves attempts' g1
      end
  end.

Definition generate_random_level_fuel (fuel : nat)
    (difficulty_min_moves max_attempts : Z) (g : Rng)
  : option (option GeneratedLevel * Rng) :=
  generate_attempts fuel difficulty_min_moves (Z.to_nat max_attempts) g.

(** [generate_random_level(difficulty_min_moves, max_attempts)], called in
    the random state [g], returns [level] and leaves the state [g']. *)
Definition generate_random_level_returns
    (difficulty_min_moves max_attempts : Z) (g : Rng)
    (level : option GeneratedLevel) (g' : Rng) : Prop :=
  exists fuel,
    generate_random_level_fuel fuel difficulty_min_moves max_attempts g
    = Some (level, g').

(** The invariant of the board under construction. *)
Definition candidate_ok (b : Board) : Prop :=
  well_formed b /\ size b = 6
  /\ Forall generated_vehicle (values (vehicles b)).

Lemma add_vehicle_candidate_ok b v :
  candidate_ok b -> generated_vehicle v -> candidate_ok (snd (add_vehicle b v)).
Proof.
  intros (Hwf & Hsize & Hall) Hv.
  split; [now apply add_vehicle_wf|]. split; [now rewrite add_vehicle_size|].
  destruct (add_vehicle_cases b v) as [[_ ->]|[_ ->]]; simpl; [assumption|].
  apply Forall_forall. intros w Hw.
  apply In_values_dict_set in Hw as [->|Hw]; [assumption|].
  rewrite Forall_forall in Hall. auto.
Qed.

Lemma place_attempts_ok attempts i orientation length board g :
  candidate_ok board ->
  length = 2 \/ length = 3 ->
  orientation = "horizontal"%string \/ orientation = "vertical"%string ->
  candidate_ok (fst (place_attempts attempts i orientation length board g)).
Proof.
  intros Hb Hl Ho. revert board g Hb.
  induction attempts as [|n IH]; intros board g Hb; cbn [place_attempts];
    [assumption|].
  destruct (randint 0 5 g) as [row g1]. destruct (randint 0 5 g1) as [col g2].
  destruct ((row =? 2) && String.eqb orientation "horizontal") eqn:Eskip;
    [now apply IH|].
  pose proof (add_vehicle_candidate_ok board
                (Vehicle.mk (obstacle_id length i) orientation length row col) Hb)
    as Hadd.
  destruct (add_vehicle board _) as [placed board'] eqn:E. simpl in Hadd.
  assert (candidate_ok board') as Hb'.
  { apply Hadd. right. simpl. split; [now exists i|]. split; [assumption|].
    split; [assumption|]. intros [Hr Hor]. subst row orientation.
    discriminate Eskip. }
  destruct placed; [assumption|now apply IH].
Qed.

Lemma add_obstacles_ok indices board g :
  candidate_ok board -> candidate_ok (fst (add_obstacles indices board g)).
Proof.
  revert board g. induction indices as [|i rest IH]; intros board g Hb;
    cbn [add_obstacles]; [assumption|].
  destruct (random g) as [x g1]. destruct (random g1) as [y g2].
  pose proof (place_attempts_ok 20 i
                (if float_lt y 5 10 then "horizontal"%string else "vertical"%string)
                (if float_lt x 7 10 then 2 else 3) board g2 Hb) as H.
  destruct (place_attempts 20 i _ _ board g2) as [board' g3]. cbn [fst] in H.
  apply IH, H.
  - destruct (float_lt x 7 10); auto.
  - destruct (float_lt y 5 10); auto.
Qed.

Lemma candidate_is_ok g : candidate_ok (fst (candidate g)).
Proof.
  unfold candidate. destruct (randint 0 3 g) as [target_col g1].
  pose proof (add_vehicle_candidate_ok (new_board 6) (target_car target_col)) as H.
  destruct (add_vehicle (new_board 6) (target_car target_col)) as [ok board1].
  destruct (randint 8 13 g1) as [num_vehicles g2].
  apply add_obstacles_ok, H.
  - split; [apply new_board_wf|]. split; [reflexivity|constructor].
  - left. now exists target_col.
Qed.

Lemma generate_attempts_accepts fuel dmm attempts g score vs g' :
  generate_attempts fuel dmm attempts g = Some (Some (score, vs), g') ->
  exists board path,
    candidate_ok board /\ vehicles board = vs
    /\ solve_board_fuel fuel board = Some (true, score, path)
    /\ dmm <= Z.of_nat score.
Proof.
  revert g. induction attempts as [|n IH]; intros g; cbn [generate_attempts];
    [discriminate|].
  pose proof (candidate_is_ok g) as Hok.
  destruct (candidate g) as [board g1]. simpl in Hok.
  destruct (solve_board_fuel fuel board) as [[[s m] p]|] eqn:E; [|discriminate].
  destruct (s && (Z.of_nat m >=? dmm)) eqn:Eacc; [|apply IH].
  intros [= <- <- <-]. apply andb_true_iff in Eacc as [-> Hge].
  rewrite Z.geb_leb in Hge. apply Z.leb_le in Hge.
  exists board, p. repeat split; solve [assumption|apply Hok].
Qed.
End Generator.

Arguments generate_random_level_returns {Rng Float}.
Arguments generate_random_level_fuel {Rng Float}.
Arguments generate_attempts {Rng Float}.
Arguments candidate {Rng Float}.

Lemma obstacle_id_not_target length i : obstacle_id length i <> "target"%string.
Proof. unfold obstacle_id. destruct (length =? 2); simpl; intros [= E]. Qed.

Lemma candidate_target b v :
  candidate_ok b -> lookup "target" (vehicles b) = Some v ->
  exists c, v = target_car c /\ 0 <= c <= 4.
Proof.
  intros (Hwf & Hsize & Hall) Hl. apply lookup_In in Hl.
  pose proof (wf_key _ _ _ Hwf Hl) as Hid.
  pose proof (wf_within _ _ _ Hwf Hl) as Hin.
  rewrite Forall_forall in Hall.
  destruct (Hall v) as [[c ->]|((i & Hi) & _)].
  - change v with (snd ("target"%string, v)). now apply in_map.
  - exists c. split; [reflexivity|].
    assert (in_bounds (size b) (cell_at (target_car c) 1)) as H1
        by (apply Hin, cell_at_own; simpl; lia).
    assert (in_bounds (size b) (cell_at (target_car c) 0)) as H0
        by (apply Hin, cell_at_own; simpl; lia).
    rewrite Hsize in H0, H1. unfold in_bounds, cell_at in H0, H1.
    simpl in H0, H1. lia.
  - rewrite Hi in Hid. symmetry in Hid. now apply obstacle_id_not_target in Hid.
Qed.

Lemma candidate_valid b : candidate_ok b -> valid_board b.
Proof.
  intros (Hwf & _ & Hall). split; [assumption|].
  eapply Forall_impl; [|exact Hall].
  intros v [[c ->]|(_ & [Hl|Hl] & _)]; simpl; lia.
Qed.

Lemma solvable_has_target b r :
  well_formed b -> solve_board_returns b r -> solvable r = true ->
  exists v, lookup "target" (vehicles b) = Some v.
Proof.
  intros Hwf Hret Hs.
  destruct (solve_board_sound b r Hret Hs) as (b' & Hp & Hsolved & _).
  apply legal_path_reach in Hp.
  destruct (reach_wf _ _ _ Hwf Hp) as [_ Hshape].
  apply shape_keys in Hshape. unfold is_solved in Hsolved.
  destruct (lookup "target" (vehicles b')) as [t|] eqn:E; [|discriminate].
  destruct (lookup "target" (vehicles b)) as [v|] eqn:E0; [eauto|].
  exfalso. apply lookup_None in E0. apply E0. rewrite <- Hshape.
  apply lookup_In in E. change "target"%string with (fst ("target"%string, t)).
  now apply in_map.
Qed.

(** What stands behind a level the generator returns. *)
Lemma generate_random_level_accepts {Rng Float : Type}
    (randint : Z -> Z -> Rng -> Z * Rng) (random : Rng -> Float * Rng)
    (float_lt : Float -> Z -> Z -> bool) dmm max_attempts g score vs g' :
  generate_random_level_returns randint random float_lt dmm max_attempts g
    (Some (score, vs)) g' ->
  candidate_ok (mkBoard 6 vs)
  /\ (exists path, solve_board_returns (mkBoard 6 vs) (true, score, path))
  /\ dmm <= Z.of_nat score.
Proof.
  intros [fuel H]. unfold generate_random_level_fuel in H.
  apply generate_attempts_accepts in H as (board & path & Hok & <- & Hs & Hd).
  assert (board = mkBoard 6 (vehicles board)) as E.
  { destruct Hok as (_ & Hsize & _). destruct board. simpl in *. now subst. }
  rewrite <- E. split; [assumption|]. split; [|assumption].
  exists path, fuel. assumption.
Qed.

(** A level the generator returns is a valid 6x6 board: its target car is
    horizontal, of length 2, on row 2, in a column from 0 to 4, and every
    other vehicle is an obstacle of length 2 or 3, horizontal or vertical,
    never horizontal on row 2. *)
Theorem generate_random_level_board {Rng Float : Type}
    (randint : Z -> Z -> Rng -> Z * Rng) (random : Rng -> Float * Rng)
    (float_lt : Float -> Z -> Z -> bool) dmm max_attempts g score vs g' :
  generate_random_level_returns randint random float_lt dmm max_attempts g
    (Some (score, vs)) g' ->
  valid_board (mkBoard 6 vs)
  /\ (exists c, lookup "target" vs = Some (target_car c) /\ 0 <= c <= 4)
  /\ Forall generated_vehicle (values vs).
Proof.
  intros H. apply generate_random_level_accepts in H as (Hok & (path & Hs) & _).
  split; [now apply candidate_valid|]. split; [|apply Hok].
  destruct (solvable_has_target _ _ (proj1 Hok) Hs eq_refl) as [v Hv].
  destruct (candidate_target _ _ Hok Hv) as (c & -> & Hc). simpl in Hv. eauto.
Qed.

(** The difficulty score of a level the generator returns is the exact
    length of a shortest solution of its board: [solve_board] finds a
    solution of that many moves, no shorter sequence of legal moves solves
    the board, and the score lies between the requested minimum and 100. *)
Theorem generate_random_level_score {Rng Float : Type}
    (randint : Z -> Z -> Rng -> Z * Rng) (random : Rng -> Float * Rng)
    (float_lt : Float -> Z -> Z -> bool) dmm max_attempts g score vs g' :
  generate_random_level_returns randint random float_lt dmm max_attempts g
    (Some (score, vs)) g' ->
  (exists path, solve_board_returns (mkBoard 6 vs) (true, score, path)
                /\ List.length path = score
                /\ is_solved (replay (mkBoard 6 vs) path) = true)
  /\ no_shorter_solution (mkBoard 6 vs) score
  /\ dmm <= Z.of_nat score <= Z.of_nat MAX_DEPTH.
Proof.
  intros H. apply generate_random_level_accepts in H as (Hok & (path & Hs) & Hd).
  destruct (solve_board_sound _ _ Hs eq_refl) as (b' & Hp & Hsolved & Hlen).
  unfold solution, min_moves in *. simpl in *.
  split; [|split].
  - exists path. rewrite (replay_legal _ _ _ Hp). auto.
  - intros p b'' Hp' Hlen'.
    exact (solve_board_least _ (proj1 Hok) _ p b'' Hs eq_refl Hp' Hlen').
  - split; [assumption|]. destruct Hs as [fuel Hs]. unfold solve_board_fuel in Hs.
    destruct (is_solved (mkBoard 6 vs)).
    + injection Hs as <- _. unfold MAX_DEPTH. lia.
    + pose proof (bfs_depth_bounds _ _ _ _ Hs eq_refl) as Hk.
      unfold min_moves in Hk. simpl in Hk. unfold MAX_DEPTH in *. lia.
Qed.

(** Asked for more than 100 moves, the generator never returns a level:
    the solver reports no more than [MAX_DEPTH] moves. *)
Theorem generate_random_level_beyond_ceiling {Rng Float : Type}
    (randint : Z -> Z -> Rng -> Z * Rng) (random : Rng -> Float * Rng)
    (float_lt : Float -> Z -> Z -> bool) dmm max_attempts g level g' :
  Z.of_nat MAX_DEPTH < dmm ->
  generate_random_level_returns randint random float_lt dmm max_attempts g
    level g' ->
  level = None.
Proof.
  intros Hd H. destruct level as [[score vs]|]; [|reflexivity]. exfalso.
  apply generate_random_level_accepts in H as (_ & (path & [fuel Hs]) & Hge).
  unfold solve_board_fuel in Hs.
  destruct (is_solved (mkBoard 6 vs)).
  - injection Hs as <- _. unfold MAX_DEPTH in Hd. lia.
  - pose proof (bfs_depth_bounds _ _ _ _ Hs eq_refl) as Hk.
    unfold min_moves in Hk. simpl in Hk. unfold MAX_DEPTH in *. lia.
Qed.

Lemma solve_board_fuel_mono fuel fuel' b r :
  solve_board_fuel fuel b = Some r -> (fuel <= fuel')%nat ->
  solve_board_fuel fuel' b = Some r.
Proof.
  unfold solve_board_fuel. destruct (is_solved b); [auto|]. apply bfs_fuel_mono.
Qed.

Lemma generate_attempts_mono {Rng Float : Type}
    (randint : Z -> Z -> Rng -> Z * Rng) (random : Rng -> Float * Rng)
    (float_lt : Float -> Z -> Z -> bool) fuel fuel' dmm attempts g x :
  generate_attempts randint random float_lt fuel dmm attempts g = Some x ->
  (fuel <= fuel')%nat ->
  generate_attempts randint random float_lt fuel' dmm attempts g = Some x.
Proof.
  intros H Hle. revert g H.
  induction attempts as [|n IH]; intros g; cbn [generate_attempts]; [auto|].
  destruct (candidate randint random float_lt g) as [board g1].
  destruct (solve_board_fuel fuel board) as [r|] eqn:E; [|discriminate].
  rewrite (solve_board_fuel_mono _ _ _ _ E Hle).
  destruct r as [[s m] p]. destruct (s && (Z.of_nat m >=? dmm)); auto.
Qed.

(** The generator returns, a level or [None], whatever the random draws:
    each of its attempts ends, because [solve_board] does. *)
Theorem generate_random_level_always_returns {Rng Float : Type}
    (randint : Z -> Z -> Rng -> Z * Rng) (random : Rng -> Float * Rng)
    (float_lt : Float -> Z -> Z -> bool) dmm max_attempts g :
  exists level g',
    generate_random_level_returns randint random float_lt dmm max_attempts g
      level g'.
Proof.
  unfold generate_random_level_returns, generate_random_level_fuel.
  generalize (Z.to_nat max_attempts) as attempts. intros attempts. revert g.
  induction attempts as [|n IH]; intros g.
  - exists None, g, O. reflexivity.
  - destruct (candidate randint random float_lt g) as [board g1] eqn:Ec.
    destruct (solve_board_total board) as [[[s m] p] [f1 Hr]].
    destruct (s && (Z.of_nat m >=? dmm)) eqn:Eacc.
    + exists (Some (m, vehicles board)), g1, f1.
      cbn [generate_attempts]. now rewrite Ec, Hr, Eacc.
    + destruct (IH g1) as (level & g' & f2 & H2).
      exists level, g', (Nat.max f1 f2).
      cbn [generate_attempts]. rewrite Ec.
      rewrite (solve_board_fuel_mono _ (Nat.max f1 f2) _ _ Hr) by lia.
      rewrite Eacc.
      apply (generate_attempts_mono _ _ _ f2); [assumption|lia].
Qed.

(** A random generator that always draws the same: 2 where the range
    allows it, and floats below every literal. *)
Definition fixed_randint (a b : Z) (g : unit) : Z * unit := (Z.max a 2, g).
Definition fixed_random (g : unit) : unit * unit := (tt, g).
Definition fixed_float_lt (x : unit) (n d : Z) : bool := true.

Lemma fixed_generator_level :
  generate_random_level_returns fixed_randint fixed_random fixed_float_lt
    1 1 tt (Some (1%nat, [("target"%string, target_car 2)])) tt.
Proof. exists 10%nat. vm_compute. reflexivity. Qed.

Lemma fixed_generator_none :
  generate_random_level_returns fixed_randint fixed_random fixed_float_lt
    101 2 tt None tt.
Proof. exists 10%nat. vm_compute. reflexivity. Qed.

Lemma generate_random_level_board_witness :
  generate_random_level_returns fixed_randint fixed_random fixed_float_lt
    1 1 tt (Some (1%nat, [("target"%string, target_car 2)])) tt
  /\ valid_board (mkBoard 6 [("target"%string, target_car 2)]).
Proof.
  split; [exact fixed_generator_level|].
  exact (proj1 (generate_random_level_board _ _ _ _ _ _ _ _ _
                  fixed_generator_level)).
Defined.

Lemma generate_random_level_score_witness :
  generate_random_level_returns fixed_randint fixed_random fixed_float_lt
    1 1 tt (Some (1%nat, [("target"%string, target_car 2)])) tt
  /\ no_shorter_solution (mkBoard 6 [("target"%string, target_car 2)]) 1.
Proof.
  split; [exact fixed_generator_level|].
  exact (proj1 (proj2 (generate_random_level_score _ _ _ _ _ _ _ _ _
                         fixed_generator_level))).
Defined.

Lemma generate_random_level_beyond_ceiling_witness :
  Z.of_nat MAX_DEPTH < 101
  /\ generate_random_level_returns fixed_randint fixed_random fixed_float_lt
       101 2 tt None tt
  /\ @None GeneratedLevel = None.
Proof.
  assert (Z.of_nat MAX_DEPTH < 101) as Hd by (unfold MAX_DEPTH; simpl; lia).
  split; [exact Hd|]. split; [exact fixed_generator_none|].
  exact (generate_random_level_beyond_ceiling _ _ _ _ _ _ _ _ Hd
           fixed_generator_none).
Defined.

(** * Paths of legal moves on valid boards *)

(** The path that undoes [path]: the opposite moves in reverse order. *)
Definition undo_path (path : list Move) : list Move :=
  rev (map (fun m => (fst m, - snd m)) path).

(** Legal moves keep a valid board valid, with the same size and the same
    keys in the same order, however many are chained. *)
Theorem legal_path_keeps_valid b path b' :
  valid_board b -> legal_path b path b' ->
  valid_board b' /\ size b' = size b
  /\ keys (vehicles b') = keys (vehicles b).
Proof.
  intros Hv Hp. induction Hp as [b|b [k s] path b' Hm Hp IH]; [auto|].
  simpl in *. pose proof Hv as [Hwf _].
  destruct (IH (move_legal_valid _ _ _ Hv Hm)) as (Hv' & Hsize & Hkeys).
  split; [assumption|]. split.
  - now rewrite Hsize, move_size.
  - rewrite Hkeys, (move_legal _ _ _ Hwf Hm). simpl. apply keys_slid.
Qed.

Lemma legal_path_keeps_valid_witness :
  valid_board scenarioC
  /\ valid_board (move (move scenarioC "car_2" (-1)) "truck_1" 3).
Proof.
  split; [exact scenarioC_valid|].
  apply (legal_path_keeps_valid scenarioC
           [("car_2"%string, -1); ("truck_1"%string, 3)] _ scenarioC_valid).
  apply legal_cons; [in_list|]. apply legal_cons; [in_list|]. apply legal_nil.
Defined.

(** On a valid board every path of legal moves can be walked back: the
    opposite moves in reverse order are legal from the board reached and
    lead to the board one started from. *)
Theorem legal_path_undo b path b' :
  valid_board b -> legal_path b path b' ->
  legal_path b' (undo_path path) b.
Proof.
  intros Hv Hp. induction Hp as [b|b [k s] path b' Hm Hp IH]; [apply legal_nil|].
  simpl in *. unfold undo_path. simpl.
  destruct (legal_move_back _ _ _ Hv Hm) as [Hback Eback].
  pose proof (legal_path_snoc _ _ _ (k, - s)
                (IH (move_legal_valid _ _ _ Hv Hm)) Hback) as H.
  simpl in H. now rewrite Eback in H.
Qed.

Lemma legal_path_undo_witness :
  valid_board scenarioC
  /\ legal_path (move (move scenarioC "car_2" (-1)) "truck_1" 3)
       [("truck_1"%string, -3); ("car_2"%string, 1)] scenarioC.
Proof.
  split; [exact scenarioC_valid|].
  apply (legal_path_undo scenarioC
           [("car_2"%string, -1); ("truck_1"%string, 3)] _ scenarioC_valid).
  apply legal_cons; [in_list|]. apply legal_cons; [in_list|]. apply legal_nil.
Defined.
